(** * MQTT to HTTP bridge: a shallow embedding of [src/bridge.js],
    [src/config.js], [src/index.js] and [src/log.js], and the properties of
    the delivery queues, the retry protocol, the broker connect loop, the
    configuration validation, the diagnostics and the log levels.

    Conventions of the embedding.

    - JavaScript numbers that the program only ever uses as counters, lengths
      and millisecond delays are integers of [Z]; [Math.pow] on them is
      [Z.pow].  The doubles of the runtime are exact on these values up to
      2^53 and round beyond; the theorems that give the value of a retry
      delay assume that the delays stay within 2^53.
    - The program is event driven.  One handler runs to completion per event;
      the handlers are functions from bridge state to bridge state, and a run
      is the fold of the handlers over the list of events.
    - Objects that the program shares by reference (the queued message) live
      in an explicit heap and are named by their location. *)

From stdpp Require Import gmap strings list fin_maps.
From Stdlib Require Import ZArith Lia Ascii.

Open Scope Z_scope.

(** ** Data of [bridge.js] *)

(** The object literal [{ topic, message, time }] built by [messageReceived]. *)
Record msgData := MsgData {
  topic : string;
  message : string;
  time : Z
}.

(** The object literal [{ data, attempts }] built by [messageReceived]. *)
Record queueMsg := QueueMsg {
  data : msgData;
  attempts : Z
}.

(** Objects are referred to by their position in the heap. *)
Abbreviation loc := nat (only parsing).

(** The fields of a bridge configuration that [bridge.js] reads.  The
    numbers are integers, which [config.js] requires of every one of them
    but [backoffMultiplier] (see [backoffMultiplier_is_not_validated]); a
    bridge run with a fractional multiplier is outside of the model. *)
Record config := Config {
  mqttEndpoint : string;
  clientId : option string;
  username : option string;
  password : option string;
  topics : list string;
  httpEndpoints : list string;
  concurrency : Z;
  maxAttempts : Z;
  backoffMultiplier : Z;
  timeout : Z;
  maxQueueLength : Z;
  maxBrokerConnectWait : Z;
  brokerConnectBackoffMultiplier : Z
}.

(** A queue of the [fastq] package, as far as the bridge observes it: the
    concurrency it was created with, the tasks handed to the worker and not
    yet done ([_running] counts them), and the linked list of waiting tasks
    from [queueHead] to [queueTail].  The queue is never paused by the
    bridge. *)
Record fastq := Fastq {
  fq_concurrency : Z;
  fq_running : list loc;
  fq_pending : list loc
}.

(** [queue.length()]: the number of waiting tasks. *)
Definition fq_length (q : fastq) : Z := Z.of_nat (length (fq_pending q)).

(** [queue.running()]. *)
Definition fq_count_running (q : fastq) : Z := Z.of_nat (length (fq_running q)).

(** An outstanding [setTimeout(() => { queue.push(queueMsg); }, timeout)]. *)
Record timer := Timer {
  tm_delay : Z;
  tm_endpoint : string;
  tm_msg : loc
}.

(** One call [axios.post(httpEndpoint, queueMsg.data, { timeout, ...,
    headers: { 'content-type': 'application/json' } })]. *)
Record request := Request {
  rq_url : string;
  rq_body : msgData;
  rq_content_type : string;
  rq_timeout : Z
}.

(** The [log.error] lines of [bridge.js] that report a lost message. *)
Inductive logEntry :=
  | MaxAttemptsExceeded (max : Z) (tpc endpoint : string)
  | MaxQueueLengthExceeded (tpc endpoint : string).

(** The state of one bridge: the objects allocated by [messageReceived], the
    [queues] object, the timers set by [requeue], the requests issued so far
    (each tagged with the message object it was issued for), the error log
    and the closure variable [messagesCount]. *)
Record bridge := Bridge {
  heap : list queueMsg;
  queues : gmap string fastq;
  timers : list timer;
  posts : list (loc * request);
  errors : list logEntry;
  messagesCount : Z
}.

Definition set_heap (h : list queueMsg) (s : bridge) : bridge :=
  Bridge h (queues s) (timers s) (posts s) (errors s) (messagesCount s).
Definition set_queues (qs : gmap string fastq) (s : bridge) : bridge :=
  Bridge (heap s) qs (timers s) (posts s) (errors s) (messagesCount s).
Definition set_timers (ts : list timer) (s : bridge) : bridge :=
  Bridge (heap s) (queues s) ts (posts s) (errors s) (messagesCount s).
Definition set_posts (ps : list (loc * request)) (s : bridge) : bridge :=
  Bridge (heap s) (queues s) (timers s) ps (errors s) (messagesCount s).
Definition log_error (e : logEntry) (s : bridge) : bridge :=
  Bridge (heap s) (queues s) (timers s) (posts s) (errors s ++ [e]) (messagesCount s).
Definition set_messagesCount (n : Z) (s : bridge) : bridge :=
  Bridge (heap s) (queues s) (timers s) (posts s) (errors s) n.

(** [Object.keys(queues)].  A [gmap] lists its keys in an order of its own,
    not in the order of insertion; [queues_messageReceived] below shows that
    what [messageReceived] does to a queue does not depend on the order. *)
Definition Object_keys (qs : gmap string fastq) : list string := (map_to_list qs).*1.

(** ** [requeue] *)

(** [requeue(log, config, queues, httpEndpoint, queueMsg)]: the returned
    timeout ([None] is [undefined]) and the state it leaves.  The timeout is
    the exact power; it is the number [Math.pow(...) * 1000] of the program
    as long as it is no more than 2^53. *)
Definition requeue (cfg : config) (httpEndpoint : string) (l : loc) (s : bridge)
  : option Z * bridge :=
  match heap s !! l with
  | None => (None, s)
  | Some m =>
    if decide (attempts m < maxAttempts cfg - 1) then
      let timeout := backoffMultiplier cfg ^ attempts m * 1000 in
      let s1 := set_timers (timers s ++ [Timer timeout httpEndpoint l]) s in
      let s2 := set_heap (<[l := QueueMsg (data m) (attempts m + 1)]> (heap s1)) s1 in
      (Some timeout, s2)
    else
      (None, log_error (MaxAttemptsExceeded (maxAttempts cfg) (topic (data m)) httpEndpoint) s)
  end.

(** ** [bridgeWorker] and the queue that runs it *)

(** The first half of [bridgeWorker]: the request is issued. *)
Definition bridgeWorker_post (cfg : config) (httpEndpoint : string) (l : loc) (s : bridge)
  : bridge :=
  match heap s !! l with
  | None => s
  | Some m =>
    set_posts (posts s ++ [(l, Request httpEndpoint (data m) "application/json" (timeout cfg))]) s
  end.

(** [queues[endpoint].push(queueMsg)] of [fastq]: the task waits at the tail
    when [_running === concurrency], and is handed to the worker at once
    otherwise. *)
Definition fastq_push (cfg : config) (endpoint : string) (l : loc) (s : bridge) : bridge :=
  match queues s !! endpoint with
  | None => s
  | Some q =>
    if decide (fq_count_running q = fq_concurrency q) then
      set_queues (<[endpoint := Fastq (fq_concurrency q) (fq_running q) (fq_pending q ++ [l])]> (queues s)) s
    else
      bridgeWorker_post cfg endpoint l
        (set_queues (<[endpoint := Fastq (fq_concurrency q) (fq_running q ++ [l]) (fq_pending q)]> (queues s)) s)
  end.

(** [release] of [fastq], called through the worker's [done]: the task at
    position [i] of the running ones is over; the head of the waiting list,
    when there is one, is handed to the worker in its place. *)
Definition fastq_release (cfg : config) (endpoint : string) (i : nat) (s : bridge) : bridge :=
  match queues s !! endpoint with
  | None => s
  | Some q =>
    let rest := delete i (fq_running q) in
    match fq_pending q with
    | next :: waiting =>
      bridgeWorker_post cfg endpoint next
        (set_queues (<[endpoint := Fastq (fq_concurrency q) (rest ++ [next]) waiting]> (queues s)) s)
    | [] =>
      set_queues (<[endpoint := Fastq (fq_concurrency q) rest []]> (queues s)) s
    end
  end.

(** What the network does with one request. *)
Inductive httpResult :=
  | NoResponse
  | Response (status : Z).

(** How the promise of [axios.post] settles: fulfilled, or rejected with an
    error whose [response] is present or not. *)
Inductive axiosOutcome :=
  | Fulfilled (status : Z)
  | Rejected (response : option Z).

(** [axios] with its default [validateStatus]: fulfilled exactly on a 2xx
    response, rejected with [err.response] on every other response, rejected
    without [err.response] when there was none. *)
Definition axios_settle (r : httpResult) : axiosOutcome :=
  match r with
  | NoResponse => Rejected None
  | Response st => if decide (200 <= st < 300) then Fulfilled st else Rejected (Some st)
  end.

(** The decision in the [catch] handler of [bridgeWorker]: is [requeue]
    called? *)
Definition calls_requeue (o : axiosOutcome) : bool :=
  match o with
  | Fulfilled _ => false
  | Rejected (Some status) => bool_decide (status = 429 ∨ status >= 500)
  | Rejected None => true
  end.

(** The [then]/[catch] handlers of [bridgeWorker] for message [l]. *)
Definition bridgeWorker_handlers (cfg : config) (httpEndpoint : string) (l : loc)
    (o : axiosOutcome) (s : bridge) : bridge :=
  match o with
  | Fulfilled _ => s
  | Rejected (Some status) =>
    if decide (status = 429 ∨ status >= 500) then (requeue cfg httpEndpoint l s).2 else s
  | Rejected None => (requeue cfg httpEndpoint l s).2
  end.

(** The second half of [bridgeWorker]: the request at position [i] of the
    running ones of [httpEndpoint] settles; the handlers run, then [done]. *)
Definition bridgeWorker_settled (cfg : config) (httpEndpoint : string) (i : nat)
    (o : axiosOutcome) (s : bridge) : bridge :=
  match queues s !! httpEndpoint ≫= (λ q, fq_running q !! i) with
  | None => s
  | Some l => fastq_release cfg httpEndpoint i (bridgeWorker_handlers cfg httpEndpoint l o s)
  end.

(** The callback of a timer set by [requeue]. *)
Definition timer_fired (cfg : config) (i : nat) (s : bridge) : bridge :=
  match timers s !! i with
  | None => s
  | Some t => fastq_push cfg (tm_endpoint t) (tm_msg t) (set_timers (delete i (timers s)) s)
  end.

(** ** [messageReceived] *)

(** The body of the [forEach] of [messageReceived] for one endpoint. *)
Definition offer (cfg : config) (tpc : string) (l : loc) (s : bridge) (endpoint : string)
  : bridge :=
  match queues s !! endpoint with
  | None => s
  | Some queue =>
    if decide (fq_length queue < maxQueueLength cfg) then fastq_push cfg endpoint l s
    else log_error (MaxQueueLengthExceeded tpc endpoint) s
  end.

(** [messageReceived(log, config, queues, topic, message)], with the string
    [message.toString()] and the number [Date.now()] as inputs.  One object
    is allocated, and the same object is offered to every queue. *)
Definition messageReceived (cfg : config) (tpc msg : string) (now : Z) (s : bridge) : bridge :=
  let l := length (heap s) in
  let s0 := set_heap (heap s ++ [QueueMsg (MsgData tpc msg now) 0]) s in
  foldl (offer cfg tpc l) s0 (Object_keys (queues s0)).

(** ** The bridge and its events *)

(** The state built by the exported function once the broker is connected
    and the topics are subscribed: one queue per configured endpoint. *)
Definition create_queues (cfg : config) : gmap string fastq :=
  foldl (λ qs endpoint, <[endpoint := Fastq (concurrency cfg) [] []]> qs) ∅ (httpEndpoints cfg).

Definition new_bridge (cfg : config) : bridge :=
  Bridge [] (create_queues cfg) [] [] [] 0.

(** The handler of the client's ['message'] event. *)
Definition on_message (cfg : config) (tpc msg : string) (now : Z) (s : bridge) : bridge :=
  messageReceived cfg tpc msg now (set_messagesCount (messagesCount s + 1) s).

Definition getMessageCount (s : bridge) : Z := messagesCount s.

Definition getQueueLength (s : bridge) : gmap string Z := fq_length <$> queues s.

(** The events a running bridge reacts to: a message from the broker (with
    [message.toString()] and the value [Date.now()] will return), the promise
    of the request at position [i] of the running tasks of an endpoint
    settling, and the timer at position [i] of the outstanding ones firing. *)
Inductive event :=
  | EvMessage (tpc msg : string) (now : Z)
  | EvSettled (httpEndpoint : string) (i : nat) (o : axiosOutcome)
  | EvTimer (i : nat).

Definition handle (cfg : config) (s : bridge) (ev : event) : bridge :=
  match ev with
  | EvMessage tpc msg now => on_message cfg tpc msg now s
  | EvSettled e i o => bridgeWorker_settled cfg e i o s
  | EvTimer i => timer_fired cfg i s
  end.

Definition run (cfg : config) (evs : list event) : bridge :=
  foldl (handle cfg) (new_bridge cfg) evs.

(** ** [connectToBroker], [subscribeToTopics] and the start of a bridge *)

(** The object literal [mqttOptions]. *)
Record mqttOptions := MqttOptions {
  opt_clientId : option string;
  opt_username : option string;
  opt_password : option string
}.

(** How one call of [mqtt.connectAsync] settles; a client is named by a
    number. *)
Inductive connectOutcome :=
  | ConnectFailed (msg : string)
  | Connected (mqttClient : nat).

Inductive promise (A : Type) :=
  | Pending
  | Resolved (a : A)
  | RejectedWith (reason : string).
Arguments Pending {A}.
Arguments Resolved {A} a.
Arguments RejectedWith {A} reason.

(** The closure of [connectToBroker]: the variable [attempt], the delays of
    the timers set so far, the number of calls of [mqtt.connectAsync] so far,
    and the promise the function returned. *)
Record connecting := Connecting {
  attempt : Z;
  connect_delays : list Z;
  connect_calls : nat;
  connect_promise : promise (nat * mqttOptions)
}.

(** The delay computed in the [catch] handler. *)
Definition connect_timeout (cfg : config) (attempt : Z) : Z :=
  let timeout := brokerConnectBackoffMultiplier cfg ^ attempt * 1000 in
  if decide (timeout > maxBrokerConnectWait cfg) then maxBrokerConnectWait cfg else timeout.

(** [attemptConnection()], given how this call of [mqtt.connectAsync] and
    the later ones settle.  On success the promise is resolved; on failure a
    timer is set to call [attemptConnection] again and [attempt] is
    incremented.  When the list is used up the last call has not settled. *)
Fixpoint attemptConnection (cfg : config) (opts : mqttOptions)
    (outcomes : list connectOutcome) (st : connecting) : connecting :=
  let st := Connecting (attempt st) (connect_delays st) (S (connect_calls st))
              (connect_promise st) in
  match outcomes with
  | [] => st
  | Connected mqttClient :: _ =>
    Connecting (attempt st) (connect_delays st) (connect_calls st)
      (Resolved (mqttClient, opts))
  | ConnectFailed _ :: outcomes' =>
    attemptConnection cfg opts outcomes'
      (Connecting (attempt st + 1)
         (connect_delays st ++ [connect_timeout cfg (attempt st)])
         (connect_calls st) (connect_promise st))
  end.

Definition connectToBroker (cfg : config) (outcomes : list connectOutcome) : connecting :=
  attemptConnection cfg (MqttOptions (clientId cfg) (username cfg) (password cfg))
    outcomes (Connecting 0 [] 0 Pending).

(** How the broker answers [mqttClient.subscribe(topic)]. *)
Inductive subscribeResult :=
  | Granted
  | SubscribeError (msg : string).

(** A JavaScript function that returns or throws. *)
Inductive result (E A : Type) :=
  | Return (a : A)
  | Throw (e : E).
Arguments Return {E A} a.
Arguments Throw {E A} e.

(** [Promise.all] over promises that settle as given: the reason of a
    rejected one if there is one (the first of the list stands for the first
    in time), nothing if all are fulfilled. *)
Fixpoint Promise_all (subs : list subscribeResult) : option string :=
  match subs with
  | [] => None
  | Granted :: subs' => Promise_all subs'
  | SubscribeError msg :: _ => Some msg
  end.

(** [subscribeToTopics(config, mqttClient)] against a broker that answers
    [subscribe]: the calls of [mqttClient.subscribe] it makes, and how it
    ends. *)
Definition subscribeToTopics (cfg : config) (subscribe : string → subscribeResult)
  : list string * result string () :=
  let subs := (λ topic, (topic, subscribe topic)) <$> topics cfg in
  (subs.*1,
   match Promise_all subs.*2 with
   | None => Return ()
   | Some msg =>
     Throw ("Failed to subscribe to all topics on " +:+ mqttEndpoint cfg
            +:+ ". Reason: " +:+ msg)
   end).

(** The exported function of [bridge.js] up to the point where the bridge
    handles messages. *)
Inductive startup :=
  | StillConnecting (st : connecting)
  | Started (mqttClient : nat) (subscribed : list string) (b : bridge)
  | StartFailed (subscribe_calls : list string) (msg : string).

Definition create_bridge (cfg : config) (outcomes : list connectOutcome)
    (subscribe : string → subscribeResult) : startup :=
  let st := connectToBroker cfg outcomes in
  match connect_promise st with
  | Resolved (mqttClient, _) =>
    match subscribeToTopics cfg subscribe with
    | (calls, Return _) => Started mqttClient calls (new_bridge cfg)
    | (calls, Throw msg) => StartFailed calls msg
    end
  | _ => StillConnecting st
  end.

(** [index.js] for one bridge: [bridge(log, conf).then(...).catch(...)], the
    [catch] handler printing the error and calling [process.exit(1)]. *)
Inductive process :=
  | Running (bridges : list bridge)
  | Exited (code : Z) (output : string).

Definition index_bridge (cfg : config) (outcomes : list connectOutcome)
    (subscribe : string → subscribeResult) : process :=
  match create_bridge cfg outcomes subscribe with
  | StillConnecting _ => Running []
  | Started _ _ b => Running [b]
  | StartFailed _ msg => Exited 1 ("ERROR: " +:+ msg)
  end.

(** ** [config.js] *)

(** JavaScript numbers as a configuration can hold them. *)
Inductive jsnum :=
  | NInt (n : Z)
  | NFraction (num : Z) (den : positive)
  | NNaN
  | NInfinity (negative : bool).

#[local] Set Warnings "-register-all".

(** The values of a parsed configuration. *)
Inductive jsval :=
  | JUndefined
  | JNull
  | JBool (b : bool)
  | JNum (x : jsnum)
  | JStr (s : string)
  | JArr (vs : list jsval).

(** [Number.isInteger(x)] for a number [x]. *)
Definition Number_isInteger (x : jsnum) : bool :=
  match x with
  | NInt _ => true
  | NFraction num den => bool_decide (num `mod` Z.pos den = 0)
  | NNaN | NInfinity _ => false
  end.

(** [x > 0] for a number [x]. *)
Definition greater_than_zero (x : jsnum) : bool :=
  match x with
  | NInt n => bool_decide (n > 0)
  | NFraction num _ => bool_decide (num > 0)
  | NNaN => false
  | NInfinity negative => negb negative
  end.

(** The conversion to boolean that [||] and [!] apply. *)
Definition truthy (v : jsval) : bool :=
  match v with
  | JUndefined | JNull => false
  | JBool b => b
  | JNum (NInt n) => bool_decide (n ≠ 0)
  | JNum (NFraction num _) => bool_decide (num ≠ 0)
  | JNum NNaN => false
  | JNum (NInfinity _) => true
  | JStr s => bool_decide (s ≠ "")
  | JArr _ => true
  end.

(** [a || b]. *)
Definition js_or (a b : jsval) : jsval := if truthy a then a else b.

(** A bridge section of the configuration: an object read by field name. *)
Definition get (bridge : gmap string jsval) (field : string) : jsval :=
  default JUndefined (bridge !! field).

Definition DEFAULT_CONCURRENCY : jsval := JNum (NInt 10).
Definition DEFAULT_MAX_ATTEMPTS : jsval := JNum (NInt 5).
Definition DEFAULT_BACKOFF_MULTIPLIER : jsval := JNum (NInt 2).
Definition DEFAULT_TIMEOUT : jsval := JNum (NInt 60000).
Definition DEFAULT_MAX_QUEUE_LENGTH : jsval := JNum (NInt 1000).
Definition DEFAULT_LOG_LEVEL : jsval := JStr "warn".
Definition DEFAULT_MAX_BROKER_CONNECT_WAIT : jsval := JNum (NInt 300000).
Definition DEFAULT_BROKER_CONNECT_BACKOFF_MULTIPLIER : jsval := JNum (NInt 2).

Definition integerConfigFields : list string :=
  ["concurrency"; "maxAttempts"; "backOffMultiplier"; "maxQueueLength";
   "timeout"; "maxBrokerConnectWait"; "brokerConnectBackoffMultiplier"].

Definition logLevels : list string := ["debug"; "warn"; "error"; "none"].

(** [logLevels.indexOf(v) >= 0]: [indexOf] compares with [===], so only a
    string can be found among the strings. *)
Definition is_logLevel (v : jsval) : bool :=
  match v with
  | JStr s => bool_decide (s ∈ logLevels)
  | _ => false
  end.

(** The errors [config.js] throws on an object: [Invalid value for
    logLevel. ...], [At least one bridge configuration is required.],
    [Invalid value for <field>. Value must be an integer greater than 0.],
    [Invalid value for httpEndpoints. ...], [Invalid value for
    mqttEndpoint. ...], [Invalid value for topics. ...]. *)
Inductive configError :=
  | InvalidLogLevel
  | NoBridges
  | InvalidInteger (field : string)
  | InvalidHttpEndpoints
  | InvalidMqttEndpoint
  | InvalidTopics.

(** [isValidNumber(num)]. *)
Definition isValidNumber (num : jsval) : bool :=
  match num with
  | JUndefined => true
  | JNum x => Number_isInteger x && greater_than_zero x
  | _ => false
  end.

Definition is_string (v : jsval) : bool :=
  match v with JStr _ => true | _ => false end.

(** [isValidArrayOfStrings(values)]; [find] returns the first element that
    is not a string, and the result is compared with [undefined]. *)
Definition isValidArrayOfStrings (values : jsval) : bool :=
  match values with
  | JArr [] => false
  | JArr vs =>
    match list_find (λ v, is_string v = false) vs with
    | None | Some (_, JUndefined) => true
    | Some _ => false
    end
  | _ => false
  end.

Section Config.

(** [new url.URL(v).protocol] of Node, [None] when the constructor
    throws. *)
Variable URL_protocol : jsval → option string.

(** [isValidArrayOfURLs(urls, validProtocols)]. *)
Definition isValidArrayOfURLs (urls : jsval) (validProtocols : list string) : bool :=
  match urls with
  | JArr [] => false
  | JArr us =>
    forallb (λ u, match URL_protocol u with
                  | Some protocol => bool_decide (protocol ∈ validProtocols)
                  | None => false
                  end) us
  | _ => false
  end.

(** [array.forEach(f)] for an [f] that may throw. *)
Fixpoint forEach {A : Type} (f : A → result configError ()) (l : list A)
  : result configError () :=
  match l with
  | [] => Return ()
  | x :: l' => match f x with Return _ => forEach f l' | Throw e => Throw e end
  end.

(** The body of the [forEach] over the bridges, for one bridge: the bridge
    object as the body leaves it, or the error it throws. *)
Definition validate_bridge (bridge : gmap string jsval)
  : result configError (gmap string jsval) :=
  match forEach (λ field, if isValidNumber (get bridge field) then Return ()
                          else Throw (InvalidInteger field)) integerConfigFields with
  | Throw e => Throw e
  | Return _ =>
    let bridge := <["concurrency" := js_or (get bridge "concurrency") DEFAULT_CONCURRENCY]> bridge in
    let bridge := <["maxAttempts" := js_or (get bridge "maxAttempts") DEFAULT_MAX_ATTEMPTS]> bridge in
    let bridge := <["timeout" := js_or (get bridge "timeout") DEFAULT_TIMEOUT]> bridge in
    let bridge := <["backoffMultiplier" :=
                      js_or (get bridge "backoffMultiplier") DEFAULT_BACKOFF_MULTIPLIER]> bridge in
    let bridge := <["maxQueueLength" :=
                      js_or (get bridge "maxQueueLength") DEFAULT_MAX_QUEUE_LENGTH]> bridge in
    let bridge := <["maxBrokerConnectWait" :=
                      js_or (get bridge "maxBrokerConnectWait") DEFAULT_MAX_BROKER_CONNECT_WAIT]> bridge in
    let bridge := <["brokerConnectBackoffMultiplier" :=
                      js_or (get bridge "brokerConnectBackoffMultiplier")
                        DEFAULT_BROKER_CONNECT_BACKOFF_MULTIPLIER]> bridge in
    if negb (isValidArrayOfURLs (get bridge "httpEndpoints") ["http:"; "https:"])
    then Throw InvalidHttpEndpoints
    else if negb (isValidArrayOfURLs (JArr [get bridge "mqttEndpoint"])
                    ["mqtt:"; "mqtts:"; "ws:"; "wss:"])
    then Throw InvalidMqttEndpoint
    else if negb (isValidArrayOfStrings (get bridge "topics"))
    then Throw InvalidTopics
    else Return bridge
  end.

(** The configuration object: [logLevel], and [bridges] ([None] when the
    field is missing), the bridges in the order of [Object.keys]. *)
Record configFile := ConfigFile {
  logLevel : jsval;
  bridges : option (list (string * gmap string jsval))
}.

(** The [forEach] over [Object.keys(config.bridges)]. *)
Fixpoint validate_bridges (bs : list (string * gmap string jsval))
  : result configError (list (string * gmap string jsval)) :=
  match bs with
  | [] => Return []
  | (name, bridge) :: bs' =>
    match validate_bridge bridge with
    | Throw e => Throw e
    | Return bridge' =>
      match validate_bridges bs' with
      | Throw e => Throw e
      | Return bs'' => Return ((name, bridge') :: bs'')
      end
    end
  end.

(** The exported function of [config.js], applied to an object. *)
Definition validate_config (base : configFile) : result configError configFile :=
  match (match logLevel base with
         | JUndefined => Return DEFAULT_LOG_LEVEL
         | level => if is_logLevel level then Return level else Throw InvalidLogLevel
         end) with
  | Throw e => Throw e
  | Return level =>
    match bridges base with
    | None => Throw NoBridges
    | Some bs =>
      match validate_bridges bs with
      | Throw e => Throw e
      | Return bs' => Return (ConfigFile level (Some bs'))
      end
    end
  end.

End Config.

(** ** [index.js] *)

(** What the start of one bridge depends on: its configuration, how the
    calls of [mqtt.connectAsync] settle, and how the broker answers
    [subscribe]. *)
Record launch := Launch {
  launch_config : config;
  launch_connects : list connectOutcome;
  launch_subscribe : string → subscribeResult
}.

(** The object [printDiagnostics] logs. *)
Record diagnostics := Diagnostics {
  dg_rss : jsnum;
  dg_queueLengths : list (gmap string Z);
  dg_messageCount : Z;
  dg_incremental : Z
}.

(** The [TypeError] of [Array.prototype.reduce] on an empty array without
    an initial value. *)
Inductive typeError :=
  | ReduceOfEmptyArray.

(** [xs.reduce((a, c) => a + c)]. *)
Definition reduce_sum (xs : list Z) : result typeError Z :=
  match xs with
  | [] => Throw ReduceOfEmptyArray
  | x :: xs' => Return (foldl Z.add x xs')
  end.

(** [printDiagnostics()], given [process.memoryUsage().rss], the array
    [bridges] with the bridges as they are now, and the variable
    [lastMessageCount]: the diagnostics logged and the new value of
    [lastMessageCount], or the error thrown. *)
Definition printDiagnostics (rss : Z) (bridges : list bridge) (lastMessageCount : Z)
  : result typeError (diagnostics * Z) :=
  let rss_mb := NFraction rss (1024 * 1024) in
  let queueLengths := getQueueLength <$> bridges in
  match reduce_sum (getMessageCount <$> bridges) with
  | Throw e => Throw e
  | Return messageCount =>
    let incremental := messageCount - lastMessageCount in
    Return (Diagnostics rss_mb queueLengths messageCount incremental, messageCount)
  end.

(** The calls of [printDiagnostics] that [setInterval] makes, one per
    element of the list (the [rss] and the bridges at the time of the call):
    the diagnostics logged until a call throws, and the error if one
    does. *)
Fixpoint diagnostics_run (ticks : list (Z * list bridge)) (lastMessageCount : Z)
  : list diagnostics * option typeError :=
  match ticks with
  | [] => ([], None)
  | (rss, bridges) :: ticks' =>
    match printDiagnostics rss bridges lastMessageCount with
    | Throw e => ([], Some e)
    | Return (d, last) =>
      let '(ds, e) := diagnostics_run ticks' last in (d :: ds, e)
    end
  end.

(** What happens in the process of [index.js] once the configuration is
    loaded and the loop [for (const name in conf.bridges)] has called
    [bridge(log, conf.bridges[name])] for every bridge: the promise of a
    bridge settles, and the [then] or the [catch] handler of the loop runs;
    a bridge that has started handles an event of its own; the interval
    fires. *)
Inductive indexEvent :=
  | IxSettled (l : launch)
  | IxBridge (i : nat) (ev : event)
  | IxInterval (rss : Z).

(** The process: running, with the array [bridges] (each bridge with the
    configuration its handlers close over), the variable [lastMessageCount]
    and the diagnostics logged so far; ended by [process.exit]; or left by an
    error thrown out of the callback of the interval, which nothing
    catches. *)
Inductive indexState :=
  | IxRunning (bridges : list (config * bridge)) (lastMessageCount : Z)
      (logged : list diagnostics)
  | IxExited (code : Z) (output : string)
  | IxUncaught (e : typeError).

(** One step of the process.  [PRINT_DIAGNOSTICS] is the test
    [process.env.PRINT_DIAGNOSTICS === 'true']: the interval is only set,
    and so only fires, when it holds.  A promise that is still pending has
    no handler to run. *)
Definition index_step (PRINT_DIAGNOSTICS : bool) (st : indexState) (ev : indexEvent)
  : indexState :=
  match st with
  | IxRunning bridges lastMessageCount logged =>
    match ev with
    | IxSettled l =>
      match create_bridge (launch_config l) (launch_connects l) (launch_subscribe l) with
      | StillConnecting _ => st
      | Started _ _ b => IxRunning (bridges ++ [(launch_config l, b)]) lastMessageCount logged
      | StartFailed _ msg => IxExited 1 ("ERROR: " +:+ msg)
      end
    | IxBridge i ev =>
      IxRunning (alter (λ cb, (cb.1, handle cb.1 cb.2 ev)) i bridges) lastMessageCount logged
    | IxInterval rss =>
      if PRINT_DIAGNOSTICS then
        match printDiagnostics rss (snd <$> bridges) lastMessageCount with
        | Throw e => IxUncaught e
        | Return (d, last) => IxRunning bridges last (logged ++ [d])
        end
      else st
    end
  | _ => st
  end.

Definition index_js (PRINT_DIAGNOSTICS : bool) (evs : list indexEvent) : indexState :=
  foldl (index_step PRINT_DIAGNOSTICS) (IxRunning [] 0 []) evs.

(** ** [log.js] *)

Definition log_logLevels : list string := ["debug"; "warn"; "error"; "diagnostics"; "none"].

(** [array.indexOf(x)], [-1] when [x] is not in the array. *)
Fixpoint indexOf (x : string) (l : list string) : Z :=
  match l with
  | [] => -1
  | y :: l' =>
    if decide (y = x) then 0
    else let i := indexOf x l' in if decide (i < 0) then -1 else i + 1
  end.

(** The template string of the loop of [log.js] for the index [idx]:
    [logLevels[idx]] is [undefined] outside of the array. *)
Definition debugConf (idx : Z) : string :=
  "mqtt-http-bridge:" +:+
  (if decide (idx < 0) then "undefined"
   else default "undefined" (log_logLevels !! Z.to_nat idx)).

(** The array [debugConfs] that [log.js] joins and hands to
    [debug.enable]: one entry for every index from that of [level] to the
    end of [logLevels]. *)
Definition debugConfs (level : string) : list string :=
  let levelIdx := indexOf level log_logLevels in
  debugConf <$> seqZ levelIdx (Z.of_nat (length log_logLevels) - levelIdx).

(** Does the logger [log.<name>], created as
    [debug('mqtt-http-bridge:<name>')], print?  It does when its name is
    among the names enabled. *)
Definition log_prints (level name : string) : bool :=
  bool_decide (("mqtt-http-bridge:" +:+ name) ∈ debugConfs level).

(** * Properties *)

(** ** Frame properties of the handlers *)

Ltac unfold_ops :=
  unfold offer, timer_fired, bridgeWorker_settled, bridgeWorker_handlers, fastq_release,
    fastq_push, bridgeWorker_post, requeue.

Ltac frame := intros; unfold_ops; repeat (simpl; case_match); simpl; try done.

Lemma messagesCount_post cfg e l s :
  messagesCount (bridgeWorker_post cfg e l s) = messagesCount s.
Proof. frame. Qed.

Lemma messagesCount_push cfg e l s :
  messagesCount (fastq_push cfg e l s) = messagesCount s.
Proof. frame. Qed.

Lemma messagesCount_requeue cfg e l s :
  messagesCount (requeue cfg e l s).2 = messagesCount s.
Proof. frame. Qed.

Lemma messagesCount_settled cfg e i o s :
  messagesCount (bridgeWorker_settled cfg e i o s) = messagesCount s.
Proof. frame. Qed.

Lemma messagesCount_timer cfg i s :
  messagesCount (timer_fired cfg i s) = messagesCount s.
Proof. frame. Qed.

Lemma messagesCount_offer cfg tpc l s e :
  messagesCount (offer cfg tpc l s e) = messagesCount s.
Proof. frame. Qed.

Lemma messagesCount_offers cfg tpc l ks s :
  messagesCount (foldl (offer cfg tpc l) s ks) = messagesCount s.
Proof.
  revert s. induction ks as [|k ks IH]; intros s; simpl; [done|].
  by rewrite IH, messagesCount_offer.
Qed.

Lemma messagesCount_messageReceived cfg tpc msg now s :
  messagesCount (messageReceived cfg tpc msg now s) = messagesCount s.
Proof. unfold messageReceived. by rewrite messagesCount_offers. Qed.

(** ** The message counter *)

(** The messages of a run, in the order of their arrival: the [data] object
    each ['message'] event gives rise to. *)
Fixpoint messages_of (evs : list event) : list msgData :=
  match evs with
  | [] => []
  | EvMessage tpc msg now :: evs' => MsgData tpc msg now :: messages_of evs'
  | _ :: evs' => messages_of evs'
  end.

Lemma messages_of_app evs1 evs2 :
  messages_of (evs1 ++ evs2) = messages_of evs1 ++ messages_of evs2.
Proof.
  induction evs1 as [|[] evs1 IH]; simpl; [done| |done|done]. by rewrite IH.
Qed.

Lemma getMessageCount_on_message cfg tpc msg now s :
  getMessageCount (on_message cfg tpc msg now s) = getMessageCount s + 1.
Proof. unfold getMessageCount, on_message. by rewrite messagesCount_messageReceived. Qed.

Lemma getMessageCount_handle cfg s ev :
  getMessageCount (handle cfg s ev)
  = getMessageCount s + Z.of_nat (length (messages_of [ev])).
Proof.
  destruct ev as [tpc msg now|e i o|i]; simpl.
  - apply getMessageCount_on_message.
  - unfold getMessageCount. rewrite messagesCount_settled. lia.
  - unfold getMessageCount. rewrite messagesCount_timer. lia.
Qed.

Lemma getMessageCount_foldl cfg evs s :
  getMessageCount (foldl (handle cfg) s evs)
  = getMessageCount s + Z.of_nat (length (messages_of evs)).
Proof.
  revert s. induction evs as [|ev evs IH]; intros s.
  - simpl. lia.
  - change (ev :: evs) with ([ev] ++ evs).
    rewrite foldl_app, IH, messages_of_app, length_app. simpl foldl.
    rewrite getMessageCount_handle. lia.
Qed.

(** ** What a push does to the queue it is made on *)

(** [push] seen from the queue alone. *)
Definition push_queue (l : loc) (q : fastq) : fastq :=
  if decide (fq_count_running q = fq_concurrency q)
  then Fastq (fq_concurrency q) (fq_running q) (fq_pending q ++ [l])
  else Fastq (fq_concurrency q) (fq_running q ++ [l]) (fq_pending q).

(** The guarded push of [messageReceived] seen from the queue alone. *)
Definition offer_queue (cfg : config) (l : loc) (q : fastq) : fastq :=
  if decide (fq_length q < maxQueueLength cfg) then push_queue l q else q.

Lemma alter_lookup_insert (f : fastq → fastq) e q (qs : gmap string fastq) :
  qs !! e = Some q → <[e := f q]> qs = alter f e qs.
Proof.
  intros Hq. apply map_eq. intros k.
  rewrite lookup_insert, lookup_alter.
  case_decide; subst; [by rewrite Hq|done].
Qed.

Lemma alter_lookup_None (f : fastq → fastq) e (qs : gmap string fastq) :
  qs !! e = None → alter f e qs = qs.
Proof.
  intros Hq. apply map_eq. intros k. rewrite lookup_alter.
  case_decide; subst; [by rewrite Hq|done].
Qed.

Lemma queues_post cfg e l s : queues (bridgeWorker_post cfg e l s) = queues s.
Proof. frame. Qed.

Lemma queues_push cfg e l s :
  queues (fastq_push cfg e l s) = alter (push_queue l) e (queues s).
Proof.
  unfold fastq_push. destruct (queues s !! e) as [q|] eqn:Hq.
  - rewrite <- (alter_lookup_insert _ _ q) by done. unfold push_queue.
    case_decide; [done|]. by rewrite queues_post.
  - by rewrite alter_lookup_None.
Qed.

Lemma queues_offer cfg tpc l s e :
  queues (offer cfg tpc l s e) = alter (offer_queue cfg l) e (queues s).
Proof.
  unfold offer. destruct (queues s !! e) as [q|] eqn:Hq.
  - rewrite <- (alter_lookup_insert _ _ q) by done. unfold offer_queue.
    case_decide.
    + rewrite queues_push. by rewrite <- (alter_lookup_insert _ _ q).
    + simpl. by rewrite insert_id.
  - by rewrite alter_lookup_None.
Qed.

Lemma queues_offers cfg tpc l ks s :
  queues (foldl (offer cfg tpc l) s ks)
  = foldl (λ qs e, alter (offer_queue cfg l) e qs) (queues s) ks.
Proof.
  revert s. induction ks as [|k ks IH]; intros s; simpl; [done|].
  by rewrite IH, queues_offer.
Qed.

Lemma lookup_foldl_alter (f : fastq → fastq) ks (qs : gmap string fastq) e :
  NoDup ks →
  foldl (λ qs e, alter f e qs) qs ks !! e
  = if decide (e ∈ ks) then f <$> qs !! e else qs !! e.
Proof.
  intros Hnd. revert qs. induction Hnd as [|k ks Hk Hnd IH]; intros qs; simpl.
  - done.
  - rewrite IH. rewrite lookup_alter.
    destruct (decide (k = e)) as [Heq|Hne].
    + subst k. rewrite decide_False by done. by rewrite decide_True by left.
    + case_decide as He.
      * by rewrite decide_True by (by right).
      * rewrite decide_False; [done|]. intros [?|?]%elem_of_cons; by subst.
Qed.

Lemma elem_of_Object_keys (qs : gmap string fastq) e :
  e ∈ Object_keys qs ↔ is_Some (qs !! e).
Proof.
  unfold Object_keys. rewrite list_elem_of_fmap. split.
  - intros [[k q] [-> Hin]]. apply elem_of_map_to_list in Hin. by exists q.
  - intros [q Hq]. exists (e, q). split; [done|]. by apply elem_of_map_to_list.
Qed.

(** Every queue is offered the new message once, whatever the order of the
    keys: the queue of an endpoint after [messageReceived] is the guarded
    push applied to that queue before it. *)
Lemma queues_messageReceived cfg tpc msg now s e :
  queues (messageReceived cfg tpc msg now s) !! e
  = offer_queue cfg (length (heap s)) <$> queues s !! e.
Proof.
  unfold messageReceived. rewrite queues_offers. simpl queues.
  rewrite lookup_foldl_alter by apply NoDup_fst_map_to_list.
  case_decide as He; [done|].
  destruct (queues s !! e) as [q|] eqn:Hq; [|done].
  exfalso. apply He. apply elem_of_Object_keys. by exists q.
Qed.

(** ** Admission *)

(** The number of tasks a queue holds, waiting or handed to the worker. *)
Definition fq_size (q : fastq) : nat := length (fq_running q) + length (fq_pending q).

(** Was the message of a call of [messageReceived] admitted into the queue of
    [endpoint]?  It was when the queue holds one task more after the call
    (state [s']) than before it (state [s]). *)
Definition admitted (endpoint : string) (s s' : bridge) : bool :=
  match queues s !! endpoint, queues s' !! endpoint with
  | Some q, Some q' => bool_decide (fq_size q' = S (fq_size q))
  | _, _ => false
  end.

Lemma fq_size_push l q : fq_size (push_queue l q) = S (fq_size q).
Proof.
  unfold push_queue, fq_size. case_decide; simpl; rewrite length_app; simpl; lia.
Qed.

Lemma fq_length_push l q :
  fq_length (push_queue l q) = fq_length q
  ∨ fq_length (push_queue l q) = fq_length q + 1.
Proof.
  unfold push_queue, fq_length. case_decide; simpl; [right|by left].
  rewrite length_app. simpl. lia.
Qed.

Lemma admitted_messageReceived cfg tpc msg now s e q :
  queues s !! e = Some q →
  admitted e s (messageReceived cfg tpc msg now s)
  = bool_decide (fq_length q < maxQueueLength cfg).
Proof.
  intros Hq. unfold admitted. rewrite queues_messageReceived, Hq. simpl.
  unfold offer_queue. case_decide as Hlt.
  - rewrite fq_size_push. rewrite bool_decide_true by done. by rewrite bool_decide_true.
  - rewrite (bool_decide_false _ Hlt). apply bool_decide_false. lia.
Qed.

(** X1.  The first admission respects the bound of the queue. *)
Lemma messageReceived_bound cfg tpc msg now s e q :
  queues s !! e = Some q →
  fq_length q <= maxQueueLength cfg →
  ∃ q', queues (messageReceived cfg tpc msg now s) !! e = Some q'
        ∧ fq_length q' <= maxQueueLength cfg.
Proof.
  intros Hq Hle. rewrite queues_messageReceived, Hq. simpl.
  eexists; split; [done|]. unfold offer_queue. case_decide; [|done].
  destruct (fq_length_push (length (heap s)) q) as [-> | ->]; lia.
Qed.

(** X2.  A message that arrives at a full queue leaves the queue as it was. *)
Lemma messageReceived_full cfg tpc msg now s e q :
  queues s !! e = Some q →
  maxQueueLength cfg <= fq_length q →
  queues (messageReceived cfg tpc msg now s) !! e = Some q.
Proof.
  intros Hq Hle. rewrite queues_messageReceived, Hq. simpl.
  unfold offer_queue. by rewrite decide_False by lia.
Qed.

(** The callback of a retry timer pushes without looking at the length. *)
Lemma timer_fired_queue cfg i s t :
  timers s !! i = Some t →
  queues (timer_fired cfg i s) = alter (push_queue (tm_msg t)) (tm_endpoint t) (queues s).
Proof. intros Ht. unfold timer_fired. rewrite Ht. by rewrite queues_push. Qed.

(** So a retry that comes back to a queue at its bound, the worker busy,
    takes the queue over the bound. *)
Lemma timer_fired_over_bound cfg i s t q :
  timers s !! i = Some t →
  queues s !! tm_endpoint t = Some q →
  fq_count_running q = fq_concurrency q →
  fq_length q = maxQueueLength cfg →
  ∃ q', queues (timer_fired cfg i s) !! tm_endpoint t = Some q'
        ∧ fq_length q' = maxQueueLength cfg + 1.
Proof.
  intros Ht Hq Hbusy Hfull. rewrite (timer_fired_queue _ _ _ _ Ht).
  rewrite lookup_alter, decide_True by done. rewrite Hq. simpl.
  eexists; split; [done|]. unfold push_queue. rewrite decide_True by done.
  unfold fq_length in *. simpl. rewrite length_app. simpl. lia.
Qed.

(** ** The retry protocol of [requeue] *)

Lemma requeue_retry cfg e l s m :
  heap s !! l = Some m →
  attempts m < maxAttempts cfg - 1 →
  requeue cfg e l s
  = (Some (backoffMultiplier cfg ^ attempts m * 1000),
     set_heap (<[l := QueueMsg (data m) (attempts m + 1)]> (heap s))
       (set_timers (timers s ++ [Timer (backoffMultiplier cfg ^ attempts m * 1000) e l]) s)).
Proof. intros Hm Hlt. unfold requeue. rewrite Hm. by rewrite decide_True by done. Qed.

Lemma requeue_abandon cfg e l s m :
  heap s !! l = Some m →
  maxAttempts cfg - 1 <= attempts m →
  requeue cfg e l s
  = (None, log_error (MaxAttemptsExceeded (maxAttempts cfg) (topic (data m)) e) s).
Proof. intros Hm Hge. unfold requeue. rewrite Hm. by rewrite decide_False by lia. Qed.

(** [k] calls of [requeue] in a row on the same message, as in the tests:
    the values returned and the state left. *)
Fixpoint requeue_times (cfg : config) (e : string) (l : loc) (k : nat) (s : bridge)
  : list (option Z) * bridge :=
  match k with
  | O => ([], s)
  | S k' =>
    let '(rs, s') := requeue_times cfg e l k' s in
    let '(r, s'') := requeue cfg e l s' in
    (rs ++ [r], s'')
  end.

Lemma requeue_times_retries cfg e l s m (k : nat) :
  heap s !! l = Some m →
  attempts m = 0 →
  Z.of_nat k <= maxAttempts cfg - 1 →
  (requeue_times cfg e l k s).1
    = (λ i : nat, Some (backoffMultiplier cfg ^ Z.of_nat i * 1000)) <$> seq 0 k
  ∧ heap (requeue_times cfg e l k s).2 !! l = Some (QueueMsg (data m) (Z.of_nat k))
  ∧ timers (requeue_times cfg e l k s).2
    = timers s ++ ((λ i : nat, Timer (backoffMultiplier cfg ^ Z.of_nat i * 1000) e l) <$> seq 0 k)
  ∧ queues (requeue_times cfg e l k s).2 = queues s
  ∧ errors (requeue_times cfg e l k s).2 = errors s.
Proof.
  intros Hm H0. induction k as [|k IH]; intros Hk.
  - simpl. rewrite app_nil_r. destruct m as [d a]. simpl in *. by subst a.
  - destruct IH as (Hrs & Hh & Ht & Hq & He); [lia|].
    rewrite seq_S, !fmap_app. cbn [requeue_times].
    destruct (requeue_times cfg e l k s) as [rs sk]. simpl in *.
    rewrite (requeue_retry _ _ _ _ _ Hh) by (simpl; lia). simpl.
    rewrite Hrs, Ht, Hq, He, <- app_assoc.
    repeat split; try done.
    rewrite list_lookup_insert_eq by (by eapply lookup_lt_Some).
    do 2 f_equal. lia.
Qed.

Lemma backoff_monotone (b j k : Z) :
  1 <= b → 0 <= j <= k → b ^ j * 1000 <= b ^ k * 1000.
Proof.
  intros Hb Hjk. apply Z.mul_le_mono_nonneg_r; [lia|].
  apply Z.pow_le_mono_r; lia.
Qed.

Definition cfg10 : config :=
  Config "mqtts://broker.losant.com" None None None ["topic1"; "topic2"] ["endpoint"]
    10 10 2 60000 1000 300000 2.

Definition one_message : bridge :=
  Bridge [QueueMsg (MsgData "topic" "hello" 1592425256831) 0] (create_queues cfg10) [] [] [] 0.

(** The scenario of the tests: with multiplier 2 and 10 attempts, twenty
    calls give nine delays and then nothing. *)
Example requeue_twenty_calls :
  (requeue_times cfg10 "endpoint" 0%nat 20 one_message).1
  = (Some <$> [1000; 2000; 4000; 8000; 16000; 32000; 64000; 128000; 256000])
    ++ replicate 11 None
  ∧ attempts <$> heap (requeue_times cfg10 "endpoint" 0%nat 20 one_message).2 !! 0%nat
    = Some 9
  ∧ length (timers (requeue_times cfg10 "endpoint" 0%nat 20 one_message).2) = 9%nat.
Proof. vm_compute. done. Qed.

(** ** Classification of a delivery attempt *)

Lemma calls_requeue_settle r :
  calls_requeue (axios_settle r) = true
  ↔ r = NoResponse ∨ ∃ st, r = Response st ∧ (st = 429 ∨ st >= 500).
Proof.
  destruct r as [|st]; simpl.
  - split; [by left|done].
  - case_decide as H2xx; simpl.
    + split; [done|]. intros [?|(st' & [= <-] & Hst)]; [done|lia].
    + rewrite bool_decide_eq_true. split.
      * intros Hst. right. by exists st.
      * by intros [?|(st' & [= <-] & Hst)].
Qed.

Lemma handlers_calls_requeue cfg e l o s :
  bridgeWorker_handlers cfg e l o s
  = if calls_requeue o then (requeue cfg e l s).2 else s.
Proof.
  destruct o as [st|[st|]]; simpl; try done.
  case_decide; [by rewrite bool_decide_true|by rewrite bool_decide_false].
Qed.

(** The statuses of the tests. *)
Example classification_scenario :
  (calls_requeue ∘ axios_settle) <$> [NoResponse; Response 429; Response 500;
                                       Response 502; Response 505; Response 599]
  = replicate 6 true
  ∧ (calls_requeue ∘ axios_settle) <$> [Response 200; Response 204; Response 300;
                                         Response 404]
    = replicate 4 false
  ∧ calls_requeue <$> [Rejected (Some 200); Rejected (Some 404); Rejected (Some 300);
                       Rejected (Some 204)]
    = replicate 4 false.
Proof. vm_compute. done. Qed.

(** ** The body of the requests *)

Lemma heap_post cfg e l s : heap (bridgeWorker_post cfg e l s) = heap s.
Proof. frame. Qed.

Lemma heap_push cfg e l s : heap (fastq_push cfg e l s) = heap s.
Proof. frame. Qed.

Lemma heap_release cfg e i s : heap (fastq_release cfg e i s) = heap s.
Proof. frame. Qed.

Lemma heap_offer cfg tpc l s e : heap (offer cfg tpc l s e) = heap s.
Proof. frame. Qed.

Lemma heap_offers cfg tpc l ks s : heap (foldl (offer cfg tpc l) s ks) = heap s.
Proof.
  revert s. induction ks as [|k ks IH]; intros s; simpl; [done|].
  by rewrite IH, heap_offer.
Qed.

(** [messageReceived] allocates one object, whatever the number of queues. *)
Lemma heap_messageReceived cfg tpc msg now s :
  heap (messageReceived cfg tpc msg now s) = heap s ++ [QueueMsg (MsgData tpc msg now) 0].
Proof. unfold messageReceived. by rewrite heap_offers. Qed.

(** [requeue] changes [attempts] only: the [data] of every object stays. *)
Lemma heap_data_requeue cfg e l s :
  data <$> heap (requeue cfg e l s).2 = data <$> heap s.
Proof.
  unfold requeue. destruct (heap s !! l) as [m|] eqn:Hm; [|done].
  case_decide; [|done]. simpl. rewrite list_fmap_insert. simpl.
  apply list_insert_id. by rewrite list_lookup_fmap, Hm.
Qed.

Lemma posts_requeue cfg e l s : posts (requeue cfg e l s).2 = posts s.
Proof. frame. Qed.

(** A step that keeps the [data] of the objects, and whose new requests are
    posts of the [data] of an object as [application/json]. *)
Definition posts_data (s s' : bridge) : Prop :=
  data <$> heap s' = data <$> heap s
  ∧ ∀ l rq, (l, rq) ∈ posts s' →
      (l, rq) ∈ posts s
      ∨ (rq_content_type rq = "application/json"
         ∧ (data <$> heap s) !! l = Some (rq_body rq)).

Lemma posts_data_same s s' :
  data <$> heap s' = data <$> heap s → posts s' = posts s → posts_data s s'.
Proof. intros Hh Hp. split; [done|]. intros l rq. rewrite Hp. by left. Qed.

Lemma posts_data_trans s1 s2 s3 :
  posts_data s1 s2 → posts_data s2 s3 → posts_data s1 s3.
Proof.
  intros [Hh12 Hp12] [Hh23 Hp23]. split; [congruence|].
  intros l rq Hin. destruct (Hp23 l rq Hin) as [Hin2|Hnew].
  - by apply Hp12.
  - right. by rewrite <- Hh12.
Qed.

Lemma posts_data_post cfg e l s : posts_data s (bridgeWorker_post cfg e l s).
Proof.
  unfold bridgeWorker_post. destruct (heap s !! l) as [m|] eqn:Hm.
  - split; [done|]. simpl. intros l' rq [Hin|Hin]%elem_of_app; [by left|].
    apply list_elem_of_singleton in Hin. injection Hin as -> ->. right. simpl.
    split; [done|]. by rewrite list_lookup_fmap, Hm.
  - by apply posts_data_same.
Qed.

Lemma posts_data_push cfg e l s : posts_data s (fastq_push cfg e l s).
Proof.
  unfold fastq_push. destruct (queues s !! e) as [q|]; [|by apply posts_data_same].
  case_decide; [by apply posts_data_same|].
  eapply posts_data_trans; [|apply posts_data_post]. by apply posts_data_same.
Qed.

Lemma posts_data_release cfg e i s : posts_data s (fastq_release cfg e i s).
Proof.
  unfold fastq_release. destruct (queues s !! e) as [q|]; [|by apply posts_data_same].
  destruct (fq_pending q) as [|next waiting]; [by apply posts_data_same|].
  eapply posts_data_trans; [|apply posts_data_post]. by apply posts_data_same.
Qed.

Lemma posts_data_requeue cfg e l s : posts_data s (requeue cfg e l s).2.
Proof. apply posts_data_same; [apply heap_data_requeue|apply posts_requeue]. Qed.

Lemma posts_data_settled cfg e i o s : posts_data s (bridgeWorker_settled cfg e i o s).
Proof.
  unfold bridgeWorker_settled.
  destruct (queues s !! e ≫= _) as [l|]; [|by apply posts_data_same].
  eapply posts_data_trans; [|apply posts_data_release].
  rewrite handlers_calls_requeue.
  destruct (calls_requeue o); [apply posts_data_requeue|by apply posts_data_same].
Qed.

Lemma posts_data_timer cfg i s : posts_data s (timer_fired cfg i s).
Proof.
  unfold timer_fired. destruct (timers s !! i) as [t|]; [|by apply posts_data_same].
  eapply posts_data_trans; [|apply posts_data_push]. by apply posts_data_same.
Qed.

Lemma posts_data_offers cfg tpc l ks s : posts_data s (foldl (offer cfg tpc l) s ks).
Proof.
  revert s. induction ks as [|k ks IH]; intros s; simpl; [by apply posts_data_same|].
  eapply posts_data_trans; [|apply IH].
  unfold offer. destruct (queues s !! k) as [q|]; [|by apply posts_data_same].
  case_decide; [apply posts_data_push|by apply posts_data_same].
Qed.

(** The invariant of a run: the objects of the heap carry, in order, the
    [data] of the messages received, and every request issued so far is a
    post of the [data] of the object it was issued for. *)
Definition posts_ok (msgs : list msgData) (s : bridge) : Prop :=
  data <$> heap s = msgs
  ∧ ∀ l rq, (l, rq) ∈ posts s →
      rq_content_type rq = "application/json" ∧ msgs !! l = Some (rq_body rq).

Lemma posts_ok_step msgs s s' : posts_ok msgs s → posts_data s s' → posts_ok msgs s'.
Proof.
  intros [Hh Hp] [Hh' Hp']. split; [congruence|].
  intros l rq Hin. destruct (Hp' l rq Hin) as [Hold|[Hct Hb]]; [by apply Hp|].
  by rewrite <- Hh.
Qed.

Lemma posts_ok_handle cfg msgs s ev :
  posts_ok msgs s → posts_ok (msgs ++ messages_of [ev]) (handle cfg s ev).
Proof.
  intros Hok. destruct ev as [tpc msg now|e i o|i]; simpl.
  - unfold on_message, messageReceived.
    eapply posts_ok_step; [|apply posts_data_offers].
    destruct Hok as [Hh Hp]. split.
    + simpl. by rewrite fmap_app, Hh.
    + simpl. intros l rq Hin. destruct (Hp l rq Hin) as [Hct Hb].
      split; [done|]. by apply lookup_app_l_Some.
  - rewrite app_nil_r. eapply posts_ok_step; [done|apply posts_data_settled].
  - rewrite app_nil_r. eapply posts_ok_step; [done|apply posts_data_timer].
Qed.

Lemma posts_ok_foldl cfg evs msgs s :
  posts_ok msgs s → posts_ok (msgs ++ messages_of evs) (foldl (handle cfg) s evs).
Proof.
  revert msgs s. induction evs as [|ev evs IH]; intros msgs s Hok.
  - simpl. by rewrite app_nil_r.
  - change (ev :: evs) with ([ev] ++ evs).
    rewrite foldl_app, messages_of_app, app_assoc. apply IH.
    by apply posts_ok_handle.
Qed.

Lemma posts_ok_run cfg evs : posts_ok (messages_of evs) (run cfg evs).
Proof.
  apply (posts_ok_foldl cfg evs [] (new_bridge cfg)). split; [done|].
  intros l rq Hin. by apply elem_of_nil in Hin.
Qed.

(** C5.  Every request a bridge ever issues is a post with content type
    [application/json] whose body is the object of the three fields [topic],
    [message] and [time] built when the message it delivers was received:
    the topic and the string of the payload of that ['message'] event and the
    [Date.now()] read in its handler.  Hence all requests for one message,
    to whichever endpoint and at whichever attempt, carry the same [time]. *)
Theorem post_body_of_message cfg evs l rq :
  (l, rq) ∈ posts (run cfg evs) →
  rq_content_type rq = "application/json"
  ∧ messages_of evs !! l = Some (rq_body rq)
  ∧ ∀ rq', (l, rq') ∈ posts (run cfg evs) →
      rq_body rq' = rq_body rq ∧ time (rq_body rq') = time (rq_body rq).
Proof.
  intros Hin. destruct (posts_ok_run cfg evs) as [_ Hp].
  destruct (Hp l rq Hin) as [Hct Hb]. split; [done|]. split; [done|].
  intros rq' Hin'. destruct (Hp l rq' Hin') as [_ Hb'].
  assert (rq_body rq' = rq_body rq) as Heq by congruence.
  by rewrite Heq.
Qed.

Definition cfg2 : config :=
  Config "mqtt://localhost:1883" None None None ["t"] ["http://a.example/hook"; "http://b.example/hook"]
    10 2 2 60000 1000 300000 2.

(** One message, two endpoints; the request to the first endpoint gets no
    response, and its retry timer fires. *)
Definition retry_run : list event :=
  [EvMessage "t" "Hello" 1592425256831;
   EvSettled "http://a.example/hook" 0 (Rejected None);
   EvTimer 0].

Example retry_run_posts :
  posts (run cfg2 retry_run)
  = let body := MsgData "t" "Hello" 1592425256831 in
    [(0%nat, Request "http://a.example/hook" body "application/json" 60000);
     (0%nat, Request "http://b.example/hook" body "application/json" 60000);
     (0%nat, Request "http://a.example/hook" body "application/json" 60000)].
Proof. vm_compute. done. Qed.

Lemma post_body_of_message_witness :
  messages_of retry_run !! 0%nat = Some (MsgData "t" "Hello" 1592425256831).
Proof.
  refine (proj1 (proj2 (post_body_of_message cfg2 retry_run 0%nat
    (Request "http://a.example/hook" (MsgData "t" "Hello" 1592425256831)
       "application/json" 60000) _))).
  rewrite retry_run_posts. apply list_elem_of_here.
Defined.

(** C10.  [getMessageCount] is the number of ['message'] events the bridge
    has handled: the handler adds one before it calls [messageReceived], and
    nothing else touches the counter, neither the number of endpoints, nor a
    full queue, nor the outcome of a delivery. *)
Theorem message_count_total cfg evs :
  getMessageCount (run cfg evs) = Z.of_nat (length (messages_of evs))
  ∧ (∀ s tpc msg now,
       on_message cfg tpc msg now s
       = messageReceived cfg tpc msg now (set_messagesCount (messagesCount s + 1) s)
       ∧ getMessageCount (on_message cfg tpc msg now s) = getMessageCount s + 1)
  ∧ (∀ s e i o, getMessageCount (bridgeWorker_settled cfg e i o s) = getMessageCount s)
  ∧ (∀ s i, getMessageCount (timer_fired cfg i s) = getMessageCount s).
Proof.
  split; [|split; [|split]].
  - unfold run. rewrite getMessageCount_foldl. simpl. lia.
  - intros. split; [done|apply getMessageCount_on_message].
  - intros. apply messagesCount_settled.
  - intros. apply messagesCount_timer.
Qed.

(** C9.  Whether a message is admitted into the queue of an endpoint [B] is
    decided by the length of the queue of [B] alone: two bridge states that
    agree on that length, and differ in anything else (the queues of the
    other endpoints, full or empty, among it), take the same decision. *)
Theorem fanout_independent cfg tpc msg now s1 s2 B q1 q2 :
  queues s1 !! B = Some q1 →
  queues s2 !! B = Some q2 →
  fq_length q1 = fq_length q2 →
  admitted B s1 (messageReceived cfg tpc msg now s1)
  = bool_decide (fq_length q1 < maxQueueLength cfg)
  ∧ admitted B s1 (messageReceived cfg tpc msg now s1)
    = admitted B s2 (messageReceived cfg tpc msg now s2).
Proof.
  intros H1 H2 Hlen.
  rewrite (admitted_messageReceived _ _ _ _ _ _ _ H1).
  rewrite (admitted_messageReceived _ _ _ _ _ _ _ H2).
  by rewrite Hlen.
Qed.

Definition cfgAB : config :=
  Config "mqtt://localhost:1883" None None None ["t"] ["http://a.example/hook"; "http://b.example/hook"]
    1 5 2 60000 2 300000 2.

(** Endpoint [a] at capacity (one request running, two tasks waiting),
    endpoint [b] idle. *)
Definition a_full : bridge :=
  Bridge (replicate 3 (QueueMsg (MsgData "t" "m" 1) 0))
    (<["http://a.example/hook" := Fastq 1 [0%nat] [1%nat; 2%nat]]> (create_queues cfgAB))
    [] [] [] 3.

Lemma fanout_independent_witness :
  admitted "http://a.example/hook" a_full (messageReceived cfgAB "t" "m" 2 a_full) = false
  ∧ admitted "http://b.example/hook" a_full (messageReceived cfgAB "t" "m" 2 a_full) = true
  ∧ admitted "http://b.example/hook" a_full (messageReceived cfgAB "t" "m" 2 a_full)
    = admitted "http://b.example/hook" (new_bridge cfgAB)
        (messageReceived cfgAB "t" "m" 2 (new_bridge cfgAB)).
Proof.
  split; [by vm_compute|]. split; [by vm_compute|].
  exact (proj2 (fanout_independent cfgAB "t" "m" 2 a_full (new_bridge cfgAB)
                  "http://b.example/hook" (Fastq 1 [] []) (Fastq 1 [] [])
                  eq_refl eq_refl eq_refl)).
Defined.

(** The queue of [a] is at its bound of two waiting tasks: a new message
    leaves it as it is. *)
Lemma messageReceived_full_witness :
  queues (messageReceived cfgAB "t" "m" 2 a_full) !! "http://a.example/hook"
  = Some (Fastq 1 [0%nat] [1%nat; 2%nat]).
Proof.
  apply (messageReceived_full cfgAB "t" "m" 2 a_full "http://a.example/hook"
           (Fastq 1 [0%nat] [1%nat; 2%nat]) eq_refl).
  by vm_compute.
Defined.

Lemma messageReceived_bound_witness :
  ∃ q', queues (messageReceived cfgAB "t" "m" 2 (new_bridge cfgAB)) !! "http://b.example/hook"
        = Some q'
        ∧ fq_length q' <= maxQueueLength cfgAB.
Proof.
  apply (messageReceived_bound cfgAB "t" "m" 2 (new_bridge cfgAB) "http://b.example/hook"
           (Fastq 1 [] []) eq_refl).
  by vm_compute.
Defined.

(** ** The bound of the queues and the retry path *)

Definition cfg1 : config :=
  Config "mqtt://localhost:1883" None None None ["t"] ["http://a.example/hook"]
    1 5 2 60000 1 300000 2.

(** Two messages fill the worker and the queue of the only endpoint; the
    first request gets no response, so that its message waits on a retry
    timer while the second message moves to the worker; a third message takes
    the free place of the queue; then the timer fires. *)
Definition overflow_run : list event :=
  [EvMessage "t" "m1" 1;
   EvMessage "t" "m2" 2;
   EvSettled "http://a.example/hook" 0 (Rejected None);
   EvMessage "t" "m3" 3;
   EvTimer 0].

(** C1, at a run the bridge can make.  With [maxQueueLength = 1] the queue
    is at its bound after the third message, with the first message on a
    retry timer; when the timer fires the message is pushed without the
    check of [messageReceived], and [length()] is 2. *)
Theorem retry_push_exceeds_maxQueueLength :
  maxQueueLength cfg1 = 1
  ∧ getQueueLength (run cfg1 (take 4 overflow_run)) !! "http://a.example/hook" = Some 1
  ∧ timers (run cfg1 (take 4 overflow_run)) = [Timer 1000 "http://a.example/hook" 0%nat]
  ∧ queues (run cfg1 overflow_run) !! "http://a.example/hook"
    = Some (Fastq 1 [1%nat] [2%nat; 0%nat])
  ∧ getQueueLength (run cfg1 overflow_run) !! "http://a.example/hook" = Some 2
  ∧ errors (run cfg1 overflow_run) = [].
Proof. vm_compute. done. Qed.

(** ** One message object for all endpoints *)

(** After [messageReceived] every queue that admitted the message holds the
    same location: that of the one object the call allocated. *)
Lemma messageReceived_shares_object cfg tpc msg now s e q :
  queues s !! e = Some q →
  fq_length q < maxQueueLength cfg →
  queues (messageReceived cfg tpc msg now s) !! e = Some (push_queue (length (heap s)) q)
  ∧ heap (messageReceived cfg tpc msg now s) !! length (heap s)
    = Some (QueueMsg (MsgData tpc msg now) 0)
  ∧ length (heap (messageReceived cfg tpc msg now s)) = S (length (heap s)).
Proof.
  intros Hq Hlt. rewrite queues_messageReceived, Hq, heap_messageReceived. simpl.
  unfold offer_queue. rewrite decide_True by done. split; [done|]. split.
  - by rewrite lookup_app_r, Nat.sub_diag.
  - rewrite length_app. simpl. lia.
Qed.

(** C2, at a run the bridge can make.  Two endpoints and [maxAttempts = 2].
    One message arrives: the heap holds one object, and the running task of
    either queue is that object.  The request to the first endpoint gets no
    response: [attempts] of the object is 1, and this is what the task of the
    second endpoint reads, although no request to the second endpoint has
    failed.  When the one request to the second endpoint then fails as well,
    [requeue] finds [attempts] at the limit and gives the message up for the
    second endpoint after a single attempt. *)
Theorem attempts_counter_is_shared :
  let a := "http://a.example/hook" in
  let b := "http://b.example/hook" in
  let received := [EvMessage "t" "Hello" 1592425256831] in
  let a_failed := received ++ [EvSettled a 0 (Rejected None)] in
  let b_failed := a_failed ++ [EvSettled b 0 (Rejected None)] in
  heap (run cfg2 received) = [QueueMsg (MsgData "t" "Hello" 1592425256831) 0]
  ∧ fq_running <$> queues (run cfg2 received) !! a = Some [0%nat]
  ∧ fq_running <$> queues (run cfg2 received) !! b = Some [0%nat]
  ∧ fq_running <$> queues (run cfg2 a_failed) !! b = Some [0%nat]
  ∧ attempts <$> heap (run cfg2 a_failed) !! 0%nat = Some 1
  ∧ timers (run cfg2 a_failed) = [Timer 1000 a 0%nat]
  ∧ timers (run cfg2 b_failed) = [Timer 1000 a 0%nat]
  ∧ errors (run cfg2 b_failed) = [MaxAttemptsExceeded 2 "t" b]
  ∧ rq_url <$> (posts (run cfg2 b_failed)).*2 = [a; b].
Proof. vm_compute. done. Qed.

(** ** The connect loop *)

Lemma connect_timeout_min cfg k :
  connect_timeout cfg k
  = Z.min (brokerConnectBackoffMultiplier cfg ^ k * 1000) (maxBrokerConnectWait cfg).
Proof. unfold connect_timeout. case_decide; lia. Qed.

Lemma attemptConnection_failures cfg opts msgs rest st :
  attemptConnection cfg opts ((ConnectFailed <$> msgs) ++ rest) st
  = attemptConnection cfg opts rest
      (Connecting (attempt st + Z.of_nat (length msgs))
         (connect_delays st
          ++ ((λ i : nat, connect_timeout cfg (attempt st + Z.of_nat i)) <$> seq 0 (length msgs)))
         (connect_calls st + length msgs) (connect_promise st)).
Proof.
  revert st. induction msgs as [|msg msgs IH]; intros st.
  - simpl. rewrite app_nil_r, Z.add_0_r, Nat.add_0_r. by destruct st.
  - cbn [fmap list_fmap app attemptConnection]. rewrite IH.
    cbn [attempt connect_delays connect_calls connect_promise length].
    rewrite <- app_assoc. cbn [app seq fmap list_fmap].
    rewrite <- fmap_S_seq, <- list_fmap_compose.
    f_equal. f_equal; [lia| |lia].
    f_equal. rewrite Z.add_0_r. f_equal.
    apply list_fmap_ext. intros _ i _. simpl. f_equal. lia.
Qed.

Lemma attemptConnection_promise cfg opts outcomes st :
  connect_promise st = Pending →
  connect_promise (attemptConnection cfg opts outcomes st) = Pending
  ∨ ∃ c, Connected c ∈ outcomes
         ∧ connect_promise (attemptConnection cfg opts outcomes st) = Resolved (c, opts).
Proof.
  revert st. induction outcomes as [|[msg|c] outcomes IH]; intros st Hp.
  - by left.
  - destruct (IH (Connecting (attempt st + 1)
                    (connect_delays st ++ [connect_timeout cfg (attempt st)])
                    (S (connect_calls st)) (connect_promise st)) Hp)
      as [Hpend|(c & Hin & Hres)].
    + by left.
    + right. exists c. split; [by right|done].
  - right. exists c. split; [by left|done].
Qed.

Lemma connect_delays_min cfg k :
  ((λ i : nat, connect_timeout cfg (0 + Z.of_nat i)) <$> seq 0 k)
  = (λ i : nat, Z.min (brokerConnectBackoffMultiplier cfg ^ Z.of_nat i * 1000)
                      (maxBrokerConnectWait cfg)) <$> seq 0 k.
Proof. apply list_fmap_ext. intros _ i _. simpl. apply connect_timeout_min. Qed.

Lemma connectToBroker_failures cfg msgs :
  connectToBroker cfg (ConnectFailed <$> msgs)
  = Connecting (Z.of_nat (length msgs))
      ((λ i : nat, Z.min (brokerConnectBackoffMultiplier cfg ^ Z.of_nat i * 1000)
                         (maxBrokerConnectWait cfg)) <$> seq 0 (length msgs))
      (S (length msgs)) Pending.
Proof.
  unfold connectToBroker.
  rewrite <- (app_nil_r (ConnectFailed <$> msgs)), attemptConnection_failures.
  simpl. by rewrite connect_delays_min.
Qed.

Lemma connectToBroker_success cfg msgs c rest :
  connectToBroker cfg ((ConnectFailed <$> msgs) ++ Connected c :: rest)
  = Connecting (Z.of_nat (length msgs))
      ((λ i : nat, Z.min (brokerConnectBackoffMultiplier cfg ^ Z.of_nat i * 1000)
                         (maxBrokerConnectWait cfg)) <$> seq 0 (length msgs))
      (S (length msgs))
      (Resolved (c, MqttOptions (clientId cfg) (username cfg) (password cfg))).
Proof.
  unfold connectToBroker. rewrite attemptConnection_failures.
  simpl. by rewrite connect_delays_min.
Qed.


(** Five failures and a success, with the defaults of the configuration
    except for a maximal wait of 10 seconds. *)
Example connect_scenario :
  let cfg := Config "mqtt://localhost:1883" (Some "id") None None ["t"] ["http://a"]
               10 5 2 60000 1000 10000 2 in
  let st := connectToBroker cfg
              ((ConnectFailed <$> replicate 5 "ECONNREFUSED") ++ [Connected 7]) in
  connect_delays st = [1000; 2000; 4000; 8000; 10000]
  ∧ attempt st = 5
  ∧ connect_calls st = 6%nat
  ∧ connect_promise st = Resolved (7%nat, MqttOptions (Some "id") None None).
Proof. vm_compute. done. Qed.

(** ** Subscription *)

Lemma Promise_all_None subscribe (ts : list string) :
  Promise_all (subscribe <$> ts) = None ↔ ∀ t, t ∈ ts → subscribe t = Granted.
Proof.
  induction ts as [|t ts IH]; simpl.
  - split; [|done]. intros _ t Ht. by apply elem_of_nil in Ht.
  - destruct (subscribe t) eqn:Ht.
    + rewrite IH. split.
      * intros H t' [->|Hin]%elem_of_cons; [done|by apply H].
      * intros H t' Hin. apply H. by right.
    + split; [done|]. intros H. specialize (H t ltac:(by left)). congruence.
Qed.

Lemma subscribeToTopics_calls cfg subscribe :
  (subscribeToTopics cfg subscribe).1 = topics cfg.
Proof.
  unfold subscribeToTopics. simpl. rewrite <- list_fmap_compose.
  apply list_fmap_id.
Qed.

Lemma subscribeToTopics_results cfg (subscribe : string → subscribeResult) :
  ((λ topic, (topic, subscribe topic)) <$> topics cfg).*2 = subscribe <$> topics cfg.
Proof. by rewrite <- list_fmap_compose. Qed.

(** C8.  Once the broker is connected, [mqttClient.subscribe] is called once
    for every configured topic, in one batch and whatever the answers.  If
    all subscriptions are granted the bridge starts.  If one is not, the
    exported function throws after that one batch of calls, the error
    reaches the [catch] handler of [index.js], and the process exits with
    code 1: no subscription is tried a second time. *)
Theorem subscribe_failure_is_fatal cfg subscribe msgs c rest :
  let outcomes := (ConnectFailed <$> msgs) ++ Connected c :: rest in
  (subscribeToTopics cfg subscribe).1 = topics cfg
  ∧ ((∀ t, t ∈ topics cfg → subscribe t = Granted) →
     create_bridge cfg outcomes subscribe = Started c (topics cfg) (new_bridge cfg)
     ∧ index_bridge cfg outcomes subscribe = Running [new_bridge cfg])
  ∧ ((∃ t, t ∈ topics cfg ∧ subscribe t ≠ Granted) →
     ∃ reason,
       let msg := "Failed to subscribe to all topics on " +:+ mqttEndpoint cfg
                  +:+ ". Reason: " +:+ reason in
       (subscribeToTopics cfg subscribe).2 = Throw msg
       ∧ create_bridge cfg outcomes subscribe = StartFailed (topics cfg) msg
       ∧ index_bridge cfg outcomes subscribe = Exited 1 ("ERROR: " +:+ msg)).
Proof.
  intros outcomes.
  assert (connect_promise (connectToBroker cfg outcomes)
          = Resolved (c, MqttOptions (clientId cfg) (username cfg) (password cfg))) as Hp.
  { subst outcomes. by rewrite connectToBroker_success. }
  split; [apply subscribeToTopics_calls|]. split.
  - intros Hall. apply (Promise_all_None subscribe) in Hall.
    unfold index_bridge, create_bridge. rewrite Hp.
    pose proof (subscribeToTopics_calls cfg subscribe) as Hcalls.
    unfold subscribeToTopics in *. simpl in *.
    rewrite subscribeToTopics_results, Hall, Hcalls. done.
  - intros (t & Hin & Hne).
    destruct (Promise_all (subscribe <$> topics cfg)) as [reason|] eqn:Hall.
    + exists reason. intros msg.
      unfold index_bridge, create_bridge. rewrite Hp.
      pose proof (subscribeToTopics_calls cfg subscribe) as Hcalls.
      unfold subscribeToTopics in *. simpl in *.
      rewrite subscribeToTopics_results, Hall, Hcalls. done.
    + exfalso. apply Hne. by apply (Promise_all_None subscribe (topics cfg)).
Qed.

Example subscribe_scenario :
  let cfg := Config "mqtt://localhost:1883" None None None ["test/topic1"; "denied/#"; "t3"]
               ["http://a"] 10 5 2 60000 1000 300000 2 in
  let subscribe topic :=
    if decide (topic = "denied/#") then SubscribeError "Not authorized" else Granted in
  create_bridge cfg [ConnectFailed "ECONNREFUSED"; Connected 1] subscribe
  = StartFailed ["test/topic1"; "denied/#"; "t3"]
      "Failed to subscribe to all topics on mqtt://localhost:1883. Reason: Not authorized"
  ∧ index_bridge cfg [ConnectFailed "ECONNREFUSED"; Connected 1] subscribe
    = Exited 1 "ERROR: Failed to subscribe to all topics on mqtt://localhost:1883. Reason: Not authorized".
Proof. vm_compute. done. Qed.

(** ** Validation of the integer fields *)

(** A reading of [new url.URL(v).protocol] for the URLs of the examples,
    which are strings of the form [scheme://rest] in lower case: the scheme,
    made of letters, digits, [+], [-] and [.], with its colon. *)
Definition is_scheme_char (c : Ascii.ascii) : bool :=
  let n := Ascii.nat_of_ascii c in
  ((97 <=? n) && (n <=? 122) || (48 <=? n) && (n <=? 57))%nat
  || Ascii.eqb c "+"%char || Ascii.eqb c "-"%char || Ascii.eqb c "."%char.

Fixpoint scheme (s : string) : option string :=
  match s with
  | EmptyString => None
  | String c rest =>
    if Ascii.eqb c ":"%char then (if String.prefix "//" rest then Some ":" else None)
    else if is_scheme_char c then String c <$> scheme rest
    else None
  end.

Definition url_protocol (v : jsval) : option string :=
  match v with
  | JStr s => match scheme s with Some ":" => None | p => p end
  | _ => None
  end.

Example url_protocol_examples :
  url_protocol <$> [JStr "http://example.com"; JStr "mqtts://broker.losant.com";
                    JStr "ftp://example.com"; JStr "not a URL"; JUndefined]
  = [Some "http:"; Some "mqtts:"; Some "ftp:"; None; None].
Proof. vm_compute. done. Qed.

Lemma forEach_integer_fields (bridge : gmap string jsval) fields :
  forEach (λ field, if isValidNumber (get bridge field) then Return ()
                    else Throw (InvalidInteger field)) fields
  = match list_find (λ field, isValidNumber (get bridge field) = false) fields with
    | Some (_, field) => Throw (InvalidInteger field)
    | None => Return ()
    end.
Proof.
  induction fields as [|f fields IH]; simpl; [done|].
  destruct (isValidNumber (get bridge f)) eqn:Hf.
  - rewrite IH. rewrite decide_False by done.
    by destruct (list_find _ fields) as [[i f']|].
  - by rewrite decide_True by done.
Qed.

(** X3.  An invalid value under one of the names of [integerConfigFields]
    is rejected. *)
Lemma validate_bridge_rejects URL_protocol (bridge : gmap string jsval) field :
  field ∈ integerConfigFields →
  isValidNumber (get bridge field) = false →
  ∃ field', validate_bridge URL_protocol bridge = Throw (InvalidInteger field')
            ∧ field' ∈ integerConfigFields
            ∧ isValidNumber (get bridge field') = false.
Proof.
  intros Hin Hbad. unfold validate_bridge. rewrite forEach_integer_fields.
  destruct (list_find _ integerConfigFields) as [[i f']|] eqn:Hfind.
  - apply list_find_Some in Hfind as (Hi & Hf' & _). exists f'.
    split; [done|]. split; [|done]. by eapply list_elem_of_lookup_2.
  - exfalso. eapply list_find_None in Hfind.
    rewrite Forall_forall in Hfind. by apply (Hfind field).
Qed.

(** The seven assignments of defaults, in the order of the source. *)
Definition with_defaults (bridge : gmap string jsval) : gmap string jsval :=
  let bridge := <["concurrency" := js_or (get bridge "concurrency") DEFAULT_CONCURRENCY]> bridge in
  let bridge := <["maxAttempts" := js_or (get bridge "maxAttempts") DEFAULT_MAX_ATTEMPTS]> bridge in
  let bridge := <["timeout" := js_or (get bridge "timeout") DEFAULT_TIMEOUT]> bridge in
  let bridge := <["backoffMultiplier" :=
                    js_or (get bridge "backoffMultiplier") DEFAULT_BACKOFF_MULTIPLIER]> bridge in
  let bridge := <["maxQueueLength" :=
                    js_or (get bridge "maxQueueLength") DEFAULT_MAX_QUEUE_LENGTH]> bridge in
  let bridge := <["maxBrokerConnectWait" :=
                    js_or (get bridge "maxBrokerConnectWait") DEFAULT_MAX_BROKER_CONNECT_WAIT]> bridge in
  <["brokerConnectBackoffMultiplier" :=
      js_or (get bridge "brokerConnectBackoffMultiplier")
        DEFAULT_BROKER_CONNECT_BACKOFF_MULTIPLIER]> bridge.

Lemma validate_bridge_Return URL_protocol bridge bridge' :
  validate_bridge URL_protocol bridge = Return bridge' →
  bridge' = with_defaults bridge
  ∧ ∀ field, field ∈ integerConfigFields → isValidNumber (get bridge field) = true.
Proof.
  unfold validate_bridge. rewrite forEach_integer_fields.
  destruct (list_find _ integerConfigFields) as [[i f']|] eqn:Hfind; [done|].
  fold (with_defaults bridge).
  repeat case_match; try done. intros [= <-]. split; [done|].
  intros field Hin. eapply list_find_None in Hfind.
  rewrite Forall_forall in Hfind. specialize (Hfind field Hin).
  by destruct (isValidNumber (get bridge field)).
Qed.

(** The fields that get a default, each with its default. *)
Definition integer_defaults : list (string * jsval) :=
  [("concurrency", DEFAULT_CONCURRENCY);
   ("maxAttempts", DEFAULT_MAX_ATTEMPTS);
   ("backoffMultiplier", DEFAULT_BACKOFF_MULTIPLIER);
   ("timeout", DEFAULT_TIMEOUT);
   ("maxQueueLength", DEFAULT_MAX_QUEUE_LENGTH);
   ("maxBrokerConnectWait", DEFAULT_MAX_BROKER_CONNECT_WAIT);
   ("brokerConnectBackoffMultiplier", DEFAULT_BROKER_CONNECT_BACKOFF_MULTIPLIER)].

Lemma get_with_defaults bridge field d :
  (field, d) ∈ integer_defaults →
  get (with_defaults bridge) field = js_or (get bridge field) d.
Proof.
  intros Hin. unfold integer_defaults in Hin.
  repeat (apply elem_of_cons in Hin as [[= -> ->]|Hin];
          [unfold with_defaults, get; by simplify_map_eq|]).
  by apply elem_of_nil in Hin.
Qed.

(** X4.  A field that is undefined has its default in a configuration that
    passed the validation; a value that is there and is not [0], [NaN],
    [null], [false] or the empty string is kept. *)
Lemma validate_bridge_defaults URL_protocol bridge bridge' field d :
  validate_bridge URL_protocol bridge = Return bridge' →
  (field, d) ∈ integer_defaults →
  (get bridge field = JUndefined → get bridge' field = d)
  ∧ (truthy (get bridge field) = true → get bridge' field = get bridge field).
Proof.
  intros [-> _]%validate_bridge_Return Hin.
  rewrite (get_with_defaults _ _ _ Hin). unfold js_or.
  split; [by intros ->|by intros ->].
Qed.

Definition example_bridge : gmap string jsval :=
  {[ "mqttEndpoint" := JStr "mqtt://example.com";
     "httpEndpoints" := JArr [JStr "http://example.com"];
     "topics" := JArr [JStr "topic"] ]}.

(** The configuration with one bridge, [test], the example with one more
    field. *)
Definition configured (field : string) (v : jsval) : configFile :=
  ConfigFile JUndefined (Some [("test", <[field := v]> example_bridge)]).

Lemma validate_bridge_rejects_witness :
  ∃ field',
    validate_bridge url_protocol (<["maxQueueLength" := JNum (NInt 0)]> example_bridge)
    = Throw (InvalidInteger field')
    ∧ field' ∈ integerConfigFields
    ∧ isValidNumber (get (<["maxQueueLength" := JNum (NInt 0)]> example_bridge) field') = false.
Proof.
  apply (validate_bridge_rejects url_protocol
           (<["maxQueueLength" := JNum (NInt 0)]> example_bridge) "maxQueueLength").
  - do 3 right. left.
  - reflexivity.
Defined.

Lemma validate_bridge_defaults_witness :
  (get example_bridge "timeout" = JUndefined
   → get (with_defaults example_bridge) "timeout" = DEFAULT_TIMEOUT)
  ∧ (truthy (get example_bridge "timeout") = true
     → get (with_defaults example_bridge) "timeout" = get example_bridge "timeout").
Proof.
  apply (validate_bridge_defaults url_protocol example_bridge (with_defaults example_bridge)
           "timeout" DEFAULT_TIMEOUT).
  - reflexivity.
  - do 3 right. left.
Defined.

(** What a validation says of a field of the only bridge. *)
Definition validated_field (field : string) (r : result configError configFile)
  : result configError jsval :=
  match r with
  | Return (ConfigFile _ (Some [(_, bridge)])) => Return (get bridge field)
  | Return _ => Return JUndefined
  | Throw e => Throw e
  end.

(** C6, at configurations the program can be given.  The list
    [integerConfigFields] names [backOffMultiplier], while the default is
    assigned to [backoffMultiplier], the field [requeue] reads.  So a
    [backoffMultiplier] of [-1], of [1/2] or of a string passes the
    validation and stays in the validated configuration, where the same
    values are rejected for [maxAttempts]; and a [backOffMultiplier] of [3]
    is validated and then not used, the multiplier being the default. *)
Theorem backoffMultiplier_is_not_validated :
  validated_field "backoffMultiplier"
    (validate_config url_protocol (configured "backoffMultiplier" (JNum (NInt (-1)))))
  = Return (JNum (NInt (-1)))
  ∧ validated_field "backoffMultiplier"
      (validate_config url_protocol (configured "backoffMultiplier" (JNum (NFraction 1 2))))
    = Return (JNum (NFraction 1 2))
  ∧ validated_field "backoffMultiplier"
      (validate_config url_protocol (configured "backoffMultiplier" (JStr "Not a number")))
    = Return (JStr "Not a number")
  ∧ (validated_field "maxAttempts" ∘ validate_config url_protocol ∘ configured "maxAttempts")
    <$> [JNum (NInt (-1)); JNum (NFraction 1 2); JStr "Not a number"]
    = replicate 3 (Throw (InvalidInteger "maxAttempts"))
  ∧ validated_field "backoffMultiplier"
      (validate_config url_protocol (configured "backOffMultiplier" (JNum (NInt 3))))
    = Return (JNum (NInt 2))
  ∧ validated_field "backoffMultiplier"
      (validate_config url_protocol (configured "backOffMultiplier" (JNum (NInt (-1)))))
    = Throw (InvalidInteger "backOffMultiplier").
Proof. vm_compute. done. Qed.

(** The validation of the other fields, on the example. *)
Example validation_scenario :
  validated_field "maxAttempts" (validate_config url_protocol (configured "clientId" (JStr "id")))
  = Return (JNum (NInt 5))
  ∧ (λ f, validated_field f (validate_config url_protocol (configured f (JNum (NInt 0)))))
    <$> integerConfigFields
    = (λ f, Throw (InvalidInteger f)) <$> integerConfigFields
  ∧ (λ f, validated_field f (validate_config url_protocol (configured f JUndefined)))
    <$> integer_defaults.*1
    = Return <$> integer_defaults.*2
  ∧ validated_field "topics"
      (validate_config url_protocol (configured "mqttEndpoint" (JStr "ftp://example.com")))
    = Throw InvalidMqttEndpoint.
Proof. vm_compute. done. Qed.

(** * Invariants of a running bridge *)

(** ** The queues *)

(** [release] seen from the queue alone. *)
Definition release_queue (i : nat) (q : fastq) : fastq :=
  match fq_pending q with
  | next :: waiting => Fastq (fq_concurrency q) (delete i (fq_running q) ++ [next]) waiting
  | [] => Fastq (fq_concurrency q) (delete i (fq_running q)) []
  end.

Lemma queues_release cfg e i s :
  queues (fastq_release cfg e i s) = alter (release_queue i) e (queues s).
Proof.
  unfold fastq_release. destruct (queues s !! e) as [q|] eqn:Hq.
  - rewrite <- (alter_lookup_insert _ _ q) by done. unfold release_queue.
    destruct (fq_pending q); [done|]. by rewrite queues_post.
  - by rewrite alter_lookup_None.
Qed.

Lemma queues_requeue cfg e l s : queues (requeue cfg e l s).2 = queues s.
Proof. frame. Qed.

Lemma queues_handlers cfg e l o s :
  queues (bridgeWorker_handlers cfg e l o s) = queues s.
Proof.
  rewrite handlers_calls_requeue. destruct (calls_requeue o); [|done].
  apply queues_requeue.
Qed.

(** What one event can do to one queue: nothing, a push, or the release of
    a running task. *)
Inductive queue_step (q : fastq) : fastq → Prop :=
  | queue_step_none : queue_step q q
  | queue_step_push l : queue_step q (push_queue l q)
  | queue_step_release i l :
      fq_running q !! i = Some l → queue_step q (release_queue i q).

Lemma queue_step_handle cfg s ev e :
  match queues s !! e, queues (handle cfg s ev) !! e with
  | Some q, Some q' => queue_step q q'
  | None, None => True
  | _, _ => False
  end.
Proof.
  destruct ev as [tpc msg now|e' i o|i]; simpl.
  - unfold on_message. rewrite queues_messageReceived. simpl.
    destruct (queues s !! e) as [q|]; simpl; [|done].
    unfold offer_queue. case_decide; constructor.
  - unfold bridgeWorker_settled.
    destruct (queues s !! e' ≫= _) as [l|] eqn:Hl.
    + rewrite queues_release, queues_handlers, lookup_alter.
      destruct (queues s !! e') as [q'|] eqn:Hq'; [|done]. simpl in Hl.
      case_decide as He; subst.
      * rewrite Hq'. simpl. by econstructor.
      * destruct (queues s !! e); [constructor|done].
    + destruct (queues s !! e); [constructor|done].
  - unfold timer_fired. destruct (timers s !! i) as [t|].
    + rewrite queues_push, lookup_alter. simpl.
      case_decide as He; [subst e|];
        destruct (queues s !! _); simpl; try done; constructor.
    + destruct (queues s !! e); [constructor|done].
Qed.

Lemma lookup_create_queues cfg e :
  create_queues cfg !! e
  = if decide (e ∈ httpEndpoints cfg) then Some (Fastq (concurrency cfg) [] []) else None.
Proof.
  unfold create_queues.
  assert (∀ (es : list string) (qs : gmap string fastq),
    foldl (λ qs endpoint, <[endpoint := Fastq (concurrency cfg) [] []]> qs) qs es !! e
    = if decide (e ∈ es) then Some (Fastq (concurrency cfg) [] []) else qs !! e) as H.
  { induction es as [|e' es IH]; intros qs; simpl.
    - done.
    - rewrite IH. case_decide as Hin.
      + by rewrite decide_True by (by right).
      + rewrite lookup_insert. destruct (decide (e' = e)) as [->|Hne].
        * by rewrite decide_True by (by left).
        * rewrite decide_False; [done|]. intros [?|?]%elem_of_cons; by subst. }
  rewrite H. by case_decide.
Qed.

(** A property of queues that the initial queues have and every step keeps
    holds of every queue at every point of every run. *)
Lemma queues_run_ind (P : fastq → Prop) cfg evs e q :
  P (Fastq (concurrency cfg) [] []) →
  (∀ q q', P q → queue_step q q' → P q') →
  queues (run cfg evs) !! e = Some q →
  e ∈ httpEndpoints cfg ∧ P q.
Proof.
  intros Hinit Hstep. unfold run. revert q.
  induction evs as [|ev evs IH] using rev_ind; intros q Hq.
  - simpl in Hq. rewrite lookup_create_queues in Hq.
    case_decide; [|done]. by injection Hq as <-.
  - rewrite foldl_app in Hq. simpl in Hq.
    pose proof (queue_step_handle cfg (foldl (handle cfg) (new_bridge cfg) evs) ev e) as Hs.
    rewrite Hq in Hs.
    destruct (queues (foldl (handle cfg) (new_bridge cfg) evs) !! e) as [q0|] eqn:Hq0; [|done].
    destruct (IH q0 eq_refl) as [Hin HP]. split; [done|]. by eapply Hstep.
Qed.

Lemma queues_run_is_Some cfg evs e :
  e ∈ httpEndpoints cfg → is_Some (queues (run cfg evs) !! e).
Proof.
  intros Hin. unfold run.
  induction evs as [|ev evs IH] using rev_ind.
  - simpl. rewrite lookup_create_queues. by rewrite decide_True.
  - rewrite foldl_app. simpl.
    pose proof (queue_step_handle cfg (foldl (handle cfg) (new_bridge cfg) evs) ev e) as Hs.
    destruct IH as [q0 Hq0]. rewrite Hq0 in Hs.
    destruct (queues (handle cfg _ ev) !! e); [done|done].
Qed.

(** X5.  The queues of a bridge are those of its configured endpoints, at
    every point of every run: [getQueueLength] reports a length, which is
    not negative, for every configured endpoint and for nothing else. *)
Theorem getQueueLength_endpoints cfg evs e :
  (is_Some (getQueueLength (run cfg evs) !! e) ↔ e ∈ httpEndpoints cfg)
  ∧ ∀ n, getQueueLength (run cfg evs) !! e = Some n → 0 <= n.
Proof.
  unfold getQueueLength. rewrite lookup_fmap. split; [split|].
  - intros [n Hn]. destruct (queues (run cfg evs) !! e) as [q|] eqn:Hq; [|done].
    by apply (queues_run_ind (λ _, True) cfg evs e q).
  - intros Hin. destruct (queues_run_is_Some cfg evs e Hin) as [q ->]. by eexists.
  - intros n Hn. destruct (queues (run cfg evs) !! e) as [q|]; [|done].
    injection Hn as <-. unfold fq_length. lia.
Qed.

(** The state of a queue that respects its concurrency: it has the
    concurrency of the configuration, no more tasks are with the worker than
    that, and a task waits only when as many are. *)
Definition queue_ok (cfg : config) (q : fastq) : Prop :=
  fq_concurrency q = concurrency cfg
  ∧ fq_count_running q <= concurrency cfg
  ∧ (fq_pending q ≠ [] → fq_count_running q = concurrency cfg).

Lemma queue_ok_step cfg q q' :
  0 <= concurrency cfg → queue_ok cfg q → queue_step q q' → queue_ok cfg q'.
Proof.
  intros Hc (Hcq & Hle & Hwait) Hstep. unfold queue_ok, fq_count_running in *.
  destruct Hstep as [|l|i l Hi].
  - done.
  - unfold push_queue, fq_count_running. case_decide as Hfull; simpl.
    + split; [done|]. split; [lia|]. intros _. congruence.
    + rewrite length_app. simpl. split; [done|].
      destruct (fq_pending q) as [|x w] eqn:Hp.
      * split; [lia|done].
      * exfalso. apply Hfull. rewrite Hcq. by apply Hwait.
  - assert (length (delete i (fq_running q)) = (length (fq_running q) - 1)%nat) as Hlen
      by (apply length_delete; by eexists).
    assert (0 < length (fq_running q))%nat by (by eapply Nat.le_lt_trans, lookup_lt_Some; [lia|]).
    unfold release_queue. destruct (fq_pending q) as [|next waiting] eqn:Hp; simpl.
    + split; [done|]. split; [lia|done].
    + rewrite length_app, Hlen. simpl. split; [done|].
      specialize (Hwait ltac:(done)). split; [lia|]. intros _. lia.
Qed.

(** X6.  For a concurrency that is not negative, at every point of every
    run the number of requests under way to an endpoint is at most
    [concurrency], and a message waits in the queue of an endpoint only
    while [concurrency] requests to that endpoint are under way. *)
Theorem concurrency_respected cfg evs e q :
  0 <= concurrency cfg →
  queues (run cfg evs) !! e = Some q →
  fq_count_running q <= concurrency cfg
  ∧ (0 < fq_length q → fq_count_running q = concurrency cfg).
Proof.
  intros Hc Hq.
  assert (queue_ok cfg (Fastq (concurrency cfg) [] [])) as Hinit.
  { unfold queue_ok, fq_count_running. simpl. split; [done|]. split; [lia|].
    intros Hne. by destruct Hne. }
  destruct (queues_run_ind (queue_ok cfg) cfg evs e q Hinit) as [_ (_ & Hle & Hwait)].
  { intros q0 q0' Hok Hstep. by eapply queue_ok_step. }
  { done. }
  split; [done|]. intros Hlen. apply Hwait. intros Hnil.
  unfold fq_length in Hlen. rewrite Hnil in Hlen. simpl in Hlen. lia.
Qed.

Lemma concurrency_respected_witness :
  fq_count_running (Fastq 1 [1%nat] [2%nat; 0%nat]) <= concurrency cfg1
  ∧ (0 < fq_length (Fastq 1 [1%nat] [2%nat; 0%nat])
     → fq_count_running (Fastq 1 [1%nat] [2%nat; 0%nat]) = concurrency cfg1).
Proof.
  apply (concurrency_respected cfg1 overflow_run "http://a.example/hook").
  - by vm_compute.
  - by vm_compute.
Defined.

(** ** The retry counters and the retry timers *)

Lemma timers_post cfg e l s : timers (bridgeWorker_post cfg e l s) = timers s.
Proof. frame. Qed.

Lemma timers_push cfg e l s : timers (fastq_push cfg e l s) = timers s.
Proof. frame. Qed.

Lemma timers_release cfg e i s : timers (fastq_release cfg e i s) = timers s.
Proof. frame. Qed.

Lemma timers_offers cfg tpc l ks s : timers (foldl (offer cfg tpc l) s ks) = timers s.
Proof.
  revert s. induction ks as [|k ks IH]; intros s; simpl; [done|].
  rewrite IH. unfold offer. destruct (queues s !! k); [|done].
  case_decide; [apply timers_push|done].
Qed.

(** The counter of a message is within its bounds. *)
Definition attempts_ok (cfg : config) (m : queueMsg) : Prop :=
  0 <= attempts m <= Z.max 0 (maxAttempts cfg - 1).

(** The delay of a timer is one of the delays of the backoff. *)
Definition timer_ok (cfg : config) (t : timer) : Prop :=
  ∃ k, 0 <= k < maxAttempts cfg - 1 ∧ tm_delay t = backoffMultiplier cfg ^ k * 1000.

Definition retry_ok (cfg : config) (s : bridge) : Prop :=
  Forall (attempts_ok cfg) (heap s) ∧ Forall (timer_ok cfg) (timers s).

Lemma retry_ok_same cfg s s' :
  heap s' = heap s → timers s' = timers s → retry_ok cfg s → retry_ok cfg s'.
Proof. unfold retry_ok. by intros -> ->. Qed.

Lemma retry_ok_requeue cfg e l s : retry_ok cfg s → retry_ok cfg (requeue cfg e l s).2.
Proof.
  intros [Hh Ht]. unfold requeue. destruct (heap s !! l) as [m|] eqn:Hm; [|done].
  case_decide as Hlt; [|done]. simpl.
  assert (attempts_ok cfg m) as [H0 Hmax] by (by eapply Forall_lookup_1).
  split; simpl.
  - apply Forall_insert; [done|]. unfold attempts_ok. simpl. lia.
  - apply Forall_app. split; [done|]. apply Forall_singleton.
    exists (attempts m). simpl. split; [lia|done].
Qed.

Lemma retry_ok_handle cfg s ev : retry_ok cfg s → retry_ok cfg (handle cfg s ev).
Proof.
  intros Hok. destruct ev as [tpc msg now|e i o|i]; simpl.
  - unfold on_message, messageReceived. destruct Hok as [Hh Ht].
    split.
    + rewrite heap_offers. simpl. apply Forall_app. split; [done|].
      apply Forall_singleton. unfold attempts_ok. simpl. lia.
    + by rewrite timers_offers.
  - unfold bridgeWorker_settled. destruct (queues s !! e ≫= _) as [l|]; [|done].
    eapply retry_ok_same; [apply heap_release|apply timers_release|].
    rewrite handlers_calls_requeue.
    destruct (calls_requeue o); [by apply retry_ok_requeue|done].
  - unfold timer_fired. destruct (timers s !! i) as [t|]; [|done].
    eapply retry_ok_same; [apply heap_push|apply timers_push|].
    destruct Hok as [Hh Ht]. split; [done|]. simpl. by apply Forall_delete.
Qed.

Lemma retry_ok_run cfg evs : retry_ok cfg (run cfg evs).
Proof.
  unfold run. induction evs as [|ev evs IH] using rev_ind.
  - split; constructor.
  - rewrite foldl_app. simpl. by apply retry_ok_handle.
Qed.

(** X7.  At every point of every run the counter [attempts] of every
    message is at least 0 and at most [maxAttempts - 1] (at most 0 when
    [maxAttempts] is less than 1). *)
Theorem attempts_bounded cfg evs l m :
  heap (run cfg evs) !! l = Some m →
  0 <= attempts m ∧ attempts m <= Z.max 0 (maxAttempts cfg - 1).
Proof.
  intros Hm. destruct (retry_ok_run cfg evs) as [Hh _].
  by apply (Forall_lookup_1 _ _ _ _ Hh Hm).
Qed.

Lemma attempts_bounded_witness :
  0 <= 1 ∧ 1 <= Z.max 0 (maxAttempts cfg2 - 1).
Proof.
  apply (attempts_bounded cfg2 retry_run 0%nat
           (QueueMsg (MsgData "t" "Hello" 1592425256831) 1)).
  by vm_compute.
Defined.

(** X8.  For a multiplier of at least 1 and a longest delay
    [backoffMultiplier ^ (maxAttempts - 2) * 1000] of no more than 2^53 (the
    numbers of the program are exact up to there), every retry timer
    outstanding at any point of any run has a delay
    [backoffMultiplier ^ k * 1000] with [0 <= k <= maxAttempts - 2]: no retry
    is delayed by less than a second or by more than the longest delay. *)
Theorem retry_delays_bounded cfg evs t :
  1 <= backoffMultiplier cfg →
  backoffMultiplier cfg ^ (maxAttempts cfg - 2) * 1000 <= 2 ^ 53 →
  t ∈ timers (run cfg evs) →
  (∃ k, 0 <= k <= maxAttempts cfg - 2 ∧ tm_delay t = backoffMultiplier cfg ^ k * 1000)
  ∧ 1000 <= tm_delay t <= backoffMultiplier cfg ^ (maxAttempts cfg - 2) * 1000
  ∧ tm_delay t <= 2 ^ 53.
Proof.
  intros Hb Hmax Hin. destruct (retry_ok_run cfg evs) as [_ Ht].
  rewrite Forall_forall in Ht. destruct (Ht t Hin) as (k & Hk & Hd).
  assert (1000 <= tm_delay t <= backoffMultiplier cfg ^ (maxAttempts cfg - 2) * 1000) as Hr.
  { rewrite Hd. split.
    - pose proof (Z.pow_le_mono_r (backoffMultiplier cfg) 0 k ltac:(lia) ltac:(lia)) as Hpow.
      rewrite Z.pow_0_r in Hpow. lia.
    - apply backoff_monotone; lia. }
  split; [|split; [done|lia]].
  exists k. split; [lia|done].
Qed.

Lemma retry_delays_bounded_witness :
  (∃ k, 0 <= k <= maxAttempts cfg1 - 2 ∧ 1000 = backoffMultiplier cfg1 ^ k * 1000)
  ∧ 1000 <= 1000 <= backoffMultiplier cfg1 ^ (maxAttempts cfg1 - 2) * 1000
  ∧ 1000 <= 2 ^ 53.
Proof.
  apply (retry_delays_bounded cfg1 (take 4 overflow_run)
           (Timer 1000 "http://a.example/hook" 0%nat)).
  - simpl. lia.
  - by vm_compute.
  - vm_compute. apply list_elem_of_here.
Defined.

(** ** The log of dropped messages *)

(** Is the queue of an endpoint at or over its bound? *)
Definition is_full (cfg : config) (qs : gmap string fastq) (e : string) : bool :=
  match qs !! e with
  | Some q => bool_decide (maxQueueLength cfg <= fq_length q)
  | None => false
  end.

Lemma errors_push cfg e l s : errors (fastq_push cfg e l s) = errors s.
Proof. frame. Qed.

Lemma errors_offer cfg tpc l s e :
  errors (offer cfg tpc l s e)
  = errors s ++ (if is_full cfg (queues s) e then [MaxQueueLengthExceeded tpc e] else []).
Proof.
  unfold offer, is_full. destruct (queues s !! e) as [q|]; [|by rewrite app_nil_r].
  case_decide.
  - rewrite errors_push, bool_decide_false by lia. by rewrite app_nil_r.
  - by rewrite bool_decide_true by lia.
Qed.

Lemma is_full_offer_ne cfg tpc l s k e :
  k ≠ e → is_full cfg (queues (offer cfg tpc l s k)) e = is_full cfg (queues s) e.
Proof. intros Hne. unfold is_full. by rewrite queues_offer, lookup_alter_ne. Qed.

Lemma filter_ext_elem_of {A} (P Q : A → Prop)
    `{!∀ x, Decision (P x), !∀ x, Decision (Q x)} (l : list A) :
  (∀ x, x ∈ l → (P x ↔ Q x)) → filter P l = filter Q l.
Proof.
  induction l as [|a l IH]; intros Hext; [done|].
  rewrite !filter_cons. rewrite IH by (intros x Hx; apply Hext; by right).
  destruct (decide (P a)) as [HP|HP], (decide (Q a)) as [HQ|HQ]; try done.
  - exfalso. apply HQ, Hext; [by left|done].
  - exfalso. apply HP, Hext; [by left|done].
Qed.

Lemma errors_offers cfg tpc l ks s :
  NoDup ks →
  errors (foldl (offer cfg tpc l) s ks)
  = errors s ++ (MaxQueueLengthExceeded tpc <$> filter (λ e, is_full cfg (queues s) e) ks).
Proof.
  intros Hnd. revert s. induction Hnd as [|k ks Hk Hnd IH]; intros s; simpl.
  - by rewrite app_nil_r.
  - rewrite IH, errors_offer, <- app_assoc. f_equal.
    rewrite filter_cons.
    rewrite (filter_ext_elem_of (λ e, is_full cfg (queues (offer cfg tpc l s k)) e)
               (λ e, is_full cfg (queues s) e)).
    + by destruct (is_full cfg (queues s) k).
    + intros e He. rewrite is_full_offer_ne; [done|]. intros ->. done.
Qed.

(** X9.  [messageReceived] logs one error for every endpoint whose queue is
    at its bound, and nothing else: the errors it adds to the log are the
    [Maximum queue length exceeded] lines, for the topic of the message, of a
    list of endpoints without repetition, and an endpoint is in that list
    exactly when it has a queue with [maxQueueLength] or more waiting
    tasks. *)
Theorem drops_are_logged cfg tpc msg now s :
  ∃ dropped,
    errors (messageReceived cfg tpc msg now s)
    = errors s ++ (MaxQueueLengthExceeded tpc <$> dropped)
    ∧ NoDup dropped
    ∧ ∀ e, e ∈ dropped
           ↔ ∃ q, queues s !! e = Some q ∧ maxQueueLength cfg <= fq_length q.
Proof.
  exists (filter (λ e, is_full cfg (queues s) e) (Object_keys (queues s))).
  split; [|split].
  - unfold messageReceived. rewrite errors_offers by apply NoDup_fst_map_to_list. done.
  - apply NoDup_filter, NoDup_fst_map_to_list.
  - intros e. rewrite list_elem_of_filter, elem_of_Object_keys. unfold is_full.
    destruct (queues s !! e) as [q|]; simpl.
    + rewrite bool_decide_spec. split.
      * intros [Hfull _]. by exists q.
      * intros (q' & [= <-] & Hfull). split; [done|by eexists].
    + split; [by intros [[] _]|by intros (q' & ? & _)].
Qed.

Example drops_scenario :
  errors (messageReceived cfgAB "t" "m" 2 a_full)
  = [MaxQueueLengthExceeded "t" "http://a.example/hook"].
Proof. vm_compute. done. Qed.

(** ** The retries of a task, over a run *)

(** The call of [requeue] that the event [ev] leads to in state [s], if it
    leads to one: the message object and the endpoint it is called with, and
    the value it returns. *)
Definition requeue_call (cfg : config) (s : bridge) (ev : event)
  : option (loc * string * option Z) :=
  match ev with
  | EvSettled e i o =>
    match queues s !! e ≫= (λ q, fq_running q !! i) with
    | Some l => if calls_requeue o then Some (l, e, (requeue cfg e l s).1) else None
    | None => None
    end
  | _ => None
  end.

(** The calls of [requeue] in the run of [evs] from state [s], in their
    order. *)
Fixpoint requeue_calls (cfg : config) (s : bridge) (evs : list event)
  : list (loc * string * option Z) :=
  match evs with
  | [] => []
  | ev :: evs' =>
    option_list (requeue_call cfg s ev) ++ requeue_calls cfg (handle cfg s ev) evs'
  end.

(** A task is a message in the queue of an endpoint.  The values [requeue]
    returned for the task of message [l] at endpoint [e] in a run of the
    bridge, in their order: the delay of each retry, [None] where the message
    was given up. *)
Definition task_requeues (cfg : config) (evs : list event) (l : loc) (e : string)
  : list (option Z) :=
  snd <$> filter (λ c, c.1 = (l, e)) (requeue_calls cfg (new_bridge cfg) evs).

(** [requeue_call] follows the handler: an event for which it gives a call
    is handled by that call of [requeue] and the release of the task; an
    event for which it gives none leaves the timers without a new one and
    the message objects as they are, but for the object a message event
    allocates. *)
Lemma requeue_call_handle cfg s ev :
  match requeue_call cfg s ev with
  | Some (l, e, r) =>
    ∃ i o, ev = EvSettled e i o
           ∧ r = (requeue cfg e l s).1
           ∧ handle cfg s ev = fastq_release cfg e i (requeue cfg e l s).2
  | None =>
    (∀ t, t ∈ timers (handle cfg s ev) → t ∈ timers s)
    ∧ take (length (heap s)) (heap (handle cfg s ev)) = heap s
  end.
Proof.
  destruct ev as [tpc msg now|e i o|i]; simpl.
  - unfold on_message. rewrite heap_messageReceived. unfold messageReceived.
    rewrite timers_offers. simpl. split; [done|]. by rewrite take_app_length.
  - unfold bridgeWorker_settled.
    destruct (queues s !! e ≫= _) as [l|]; [|by rewrite firstn_all].
    rewrite handlers_calls_requeue. destruct (calls_requeue o).
    + by exists i, o.
    + rewrite timers_release, heap_release. by rewrite firstn_all.
  - unfold timer_fired. destruct (timers s !! i) as [t|]; [|by rewrite firstn_all].
    rewrite timers_push, heap_push. simpl. split; [|by rewrite firstn_all].
    by intros t' ?%list_elem_of_delete_inv.
Qed.






















(** One endpoint, five attempts: the only message is refused five times. *)
Definition refused_run : list event :=
  [EvMessage "t" "Hello" 1592425256831;
   EvSettled "http://a.example/hook" 0 (Rejected None);
   EvTimer 0;
   EvSettled "http://a.example/hook" 0 (Rejected (Some 503));
   EvTimer 0;
   EvSettled "http://a.example/hook" 0 (Rejected (Some 429));
   EvTimer 0;
   EvSettled "http://a.example/hook" 0 (Rejected None);
   EvTimer 0;
   EvSettled "http://a.example/hook" 0 (Rejected (Some 500))].

Example refused_run_requeues :
  task_requeues cfg1 refused_run 0%nat "http://a.example/hook"
  = [Some 1000; Some 2000; Some 4000; Some 8000; None].
Proof. vm_compute. done. Qed.




(** ** The outcome of a delivery attempt *)

Lemma errors_release cfg e i s : errors (fastq_release cfg e i s) = errors s.
Proof. frame. Qed.

(** C4.  A request of endpoint [e] for message [l] settles.  What follows
    is a function of the HTTP result and of the counter of the message, the
    same for every endpoint.  The task is requeued (a retry timer for [l] at
    [e] is set) exactly when the result is retryable (no response, or a
    response with status 429 or at least 500) and [attempts] is less than
    [maxAttempts - 1]; [attempts] is then raised by one and nothing is
    logged.  A retryable result at [attempts >= maxAttempts - 1] sets no
    timer, leaves [attempts] as it is and logs that the message is given up.
    Every other response sets no timer, leaves [attempts] as it is and logs
    nothing.  In all three cases the task is over: it leaves the running
    tasks of the queue of [e], the head of the waiting ones takes its place,
    and the other queues are as they were. *)
Theorem delivery_outcome cfg e i q l m r s :
  queues s !! e = Some q →
  fq_running q !! i = Some l →
  heap s !! l = Some m →
  let s' := bridgeWorker_settled cfg e i (axios_settle r) s in
  let retryable := r = NoResponse ∨ ∃ st, r = Response st ∧ (st = 429 ∨ st >= 500) in
  ((∃ d, timers s' = timers s ++ [Timer d e l])
   ↔ retryable ∧ attempts m < maxAttempts cfg - 1)
  ∧ (retryable ∧ attempts m < maxAttempts cfg - 1 →
     heap s' = <[l := QueueMsg (data m) (attempts m + 1)]> (heap s)
     ∧ errors s' = errors s)
  ∧ (retryable ∧ maxAttempts cfg - 1 <= attempts m →
     timers s' = timers s
     ∧ heap s' = heap s
     ∧ errors s' = errors s ++ [MaxAttemptsExceeded (maxAttempts cfg) (topic (data m)) e])
  ∧ (¬ retryable → timers s' = timers s ∧ heap s' = heap s ∧ errors s' = errors s)
  ∧ (∃ q', queues s' !! e = Some q'
           ∧ fq_running q' = delete i (fq_running q) ++ take 1 (fq_pending q)
           ∧ fq_pending q' = drop 1 (fq_pending q))
  ∧ (∀ e', e' ≠ e → queues s' !! e' = queues s !! e').
Proof.
  intros Hq Hl Hm s' retryable.
  assert (calls_requeue (axios_settle r) = true ↔ retryable) as Hcls
    by apply calls_requeue_settle.
  assert (s' = fastq_release cfg e i
                 (if calls_requeue (axios_settle r) then (requeue cfg e l s).2 else s)) as ->.
  { unfold s', bridgeWorker_settled. rewrite Hq. simpl. rewrite Hl.
    by rewrite handlers_calls_requeue. }
  rewrite !timers_release, !heap_release, !errors_release, !queues_release.
  assert (queues (if calls_requeue (axios_settle r) then (requeue cfg e l s).2 else s)
          = queues s) as ->.
  { destruct (calls_requeue _); [apply queues_requeue|done]. }
  assert (∀ (x : timer) ts, ¬ (ts = ts ++ [x])) as Hgrow.
  { intros x ts Heq. apply (f_equal length) in Heq. rewrite length_app in Heq.
    simpl in Heq. lia. }
  split; [|split; [|split; [|split; [|split]]]].
  - destruct (calls_requeue (axios_settle r)) eqn:Hc.
    + assert retryable as Hr by (by apply Hcls).
      destruct (decide (attempts m < maxAttempts cfg - 1)) as [Hlt|Hge].
      * rewrite (requeue_retry _ _ _ _ _ Hm) by done. simpl.
        split; [done|]. intros _. by eexists.
      * rewrite (requeue_abandon _ _ _ _ _ Hm) by lia. simpl.
        split; [by intros [d ?%Hgrow]|]. by intros [_ ?].
    + split; [by intros [d ?%Hgrow]|]. intros [Hr%Hcls _]. done.
  - intros [Hr%Hcls Hlt]. rewrite Hr.
    by rewrite (requeue_retry _ _ _ _ _ Hm) by done.
  - intros [Hr%Hcls Hge]. rewrite Hr.
    by rewrite (requeue_abandon _ _ _ _ _ Hm) by done.
  - intros Hnr. destruct (calls_requeue (axios_settle r)) eqn:Hc; [|done].
    destruct Hnr. by apply Hcls.
  - rewrite lookup_alter, decide_True by done. rewrite Hq. simpl.
    eexists. split; [done|]. unfold release_queue.
    destruct (fq_pending q); simpl; by rewrite ?app_nil_r.
  - intros e' Hne. by rewrite lookup_alter_ne.
Qed.

(** The first request for the first message of a bridge is under way. *)
Definition first_attempt : bridge := run cfg1 [EvMessage "t" "m1" 1].

Lemma delivery_outcome_witness :
  (∃ d, timers (bridgeWorker_settled cfg1 "http://a.example/hook" 0
                  (axios_settle (Response 503)) first_attempt)
        = timers first_attempt ++ [Timer d "http://a.example/hook" 0%nat])
  ↔ (Response 503 = NoResponse
     ∨ ∃ st, Response 503 = Response st ∧ (st = 429 ∨ st >= 500))
    ∧ attempts (QueueMsg (MsgData "t" "m1" 1) 0) < maxAttempts cfg1 - 1.
Proof.
  refine (proj1 (delivery_outcome cfg1 "http://a.example/hook" 0 (Fastq 1 [0%nat] []) 0%nat
                   (QueueMsg (MsgData "t" "m1" 1) 0) (Response 503) first_attempt _ _ _)).
  - by vm_compute.
  - reflexivity.
  - reflexivity.
Defined.

(** One endpoint and [maxAttempts = 2]: the first request for the message
    was answered with status 500, the timer of the retry has fired, and the
    second request is under way. *)
Definition cfg_two_attempts : config :=
  Config "mqtt://localhost:1883" None None None ["t"] ["http://a.example/hook"]
    10 2 2 60000 1000 300000 2.

Definition second_attempt : bridge :=
  run cfg_two_attempts
    [EvMessage "t" "Hello" 1592425256831;
     EvSettled "http://a.example/hook" 0 (axios_settle (Response 500));
     EvTimer 0].

(** A response with status 500 to the second request does not requeue the
    task: no timer is set, [attempts] stays at 1, the message is given up
    and the queue is empty. *)
Lemma retryable_failure_not_requeued :
  queues second_attempt !! "http://a.example/hook" = Some (Fastq 10 [0%nat] [])
  ∧ heap second_attempt = [QueueMsg (MsgData "t" "Hello" 1592425256831) 1]
  ∧ timers second_attempt = []
  ∧ timers (bridgeWorker_settled cfg_two_attempts "http://a.example/hook" 0
              (axios_settle (Response 500)) second_attempt) = []
  ∧ heap (bridgeWorker_settled cfg_two_attempts "http://a.example/hook" 0
            (axios_settle (Response 500)) second_attempt)
    = [QueueMsg (MsgData "t" "Hello" 1592425256831) 1]
  ∧ errors (bridgeWorker_settled cfg_two_attempts "http://a.example/hook" 0
              (axios_settle (Response 500)) second_attempt)
    = [MaxAttemptsExceeded 2 "t" "http://a.example/hook"]
  ∧ queues (bridgeWorker_settled cfg_two_attempts "http://a.example/hook" 0
              (axios_settle (Response 500)) second_attempt) !! "http://a.example/hook"
    = Some (Fastq 10 [] []).
Proof. vm_compute. done. Qed.

(** ** The delays of the connect loop *)

Lemma connect_outcomes_split (outcomes : list connectOutcome) :
  ∃ msgs rest,
    outcomes = (ConnectFailed <$> msgs) ++ rest
    ∧ (rest = [] ∨ ∃ c rest', rest = Connected c :: rest').
Proof.
  induction outcomes as [|[msg|c] outcomes (msgs & rest & -> & Hrest)].
  - exists [], []. split; [done|by left].
  - exists (msg :: msgs), rest. by split.
  - exists [], (Connected c :: ((ConnectFailed <$> msgs) ++ rest)). split; [done|].
    right. by eexists _, _.
Qed.

Lemma connect_delays_formula cfg outcomes :
  ∃ k : nat,
    connect_delays (connectToBroker cfg outcomes)
    = (λ i : nat, Z.min (brokerConnectBackoffMultiplier cfg ^ Z.of_nat i * 1000)
                        (maxBrokerConnectWait cfg)) <$> seq 0 k.
Proof.
  destruct (connect_outcomes_split outcomes) as (msgs & rest & -> & [->|(c & rest' & ->)]).
  - exists (length msgs). by rewrite app_nil_r, connectToBroker_failures.
  - exists (length msgs). by rewrite connectToBroker_success.
Qed.

(** X10.  However the attempts to connect go, no delay between two attempts
    is longer than [maxBrokerConnectWait]; and for a multiplier of at least
    1 the delays never decrease from one attempt to the next. *)
Theorem connect_delays_capped cfg outcomes :
  let delays := connect_delays (connectToBroker cfg outcomes) in
  (∀ i d, delays !! i = Some d → d <= maxBrokerConnectWait cfg)
  ∧ (1 <= brokerConnectBackoffMultiplier cfg →
     ∀ i j d d', (i ≤ j)%nat → delays !! i = Some d → delays !! j = Some d' → d <= d').
Proof.
  intros delays. subst delays.
  destruct (connect_delays_formula cfg outcomes) as [k ->]. split.
  - intros i d Hd. rewrite list_lookup_fmap in Hd.
    destruct (seq 0 k !! i) as [n|]; [|done]. injection Hd as <-. lia.
  - intros Hb i j d d' Hij Hd Hd'. rewrite list_lookup_fmap in Hd, Hd'.
    destruct (seq 0 k !! i) as [n|] eqn:Hn; [|done].
    destruct (seq 0 k !! j) as [n'|] eqn:Hn'; [|done].
    apply lookup_seq in Hn as [-> _]. apply lookup_seq in Hn' as [-> _].
    injection Hd as <-. injection Hd' as <-. simpl.
    assert (brokerConnectBackoffMultiplier cfg ^ Z.of_nat i
            <= brokerConnectBackoffMultiplier cfg ^ Z.of_nat j)
      by (apply Z.pow_le_mono_r; lia).
    lia.
Qed.

(** * The validated configuration *)

(** The three checks that follow the assignment of the defaults. *)
Definition check_endpoints (URL_protocol : jsval → option string)
    (bridge : gmap string jsval) : result configError (gmap string jsval) :=
  if negb (isValidArrayOfURLs URL_protocol (get bridge "httpEndpoints") ["http:"; "https:"])
  then Throw InvalidHttpEndpoints
  else if negb (isValidArrayOfURLs URL_protocol (JArr [get bridge "mqttEndpoint"])
                  ["mqtt:"; "mqtts:"; "ws:"; "wss:"])
  then Throw InvalidMqttEndpoint
  else if negb (isValidArrayOfStrings (get bridge "topics"))
  then Throw InvalidTopics
  else Return bridge.

Lemma validate_bridge_unfold URL_protocol bridge :
  validate_bridge URL_protocol bridge
  = match list_find (λ field, isValidNumber (get bridge field) = false) integerConfigFields with
    | Some (_, field) => Throw (InvalidInteger field)
    | None => check_endpoints URL_protocol (with_defaults bridge)
    end.
Proof.
  unfold validate_bridge. rewrite forEach_integer_fields.
  by destruct (list_find _ integerConfigFields) as [[i f]|].
Qed.

Lemma truthy_js_or v d : truthy d = true → truthy (js_or v d) = true.
Proof. intros Hd. unfold js_or. by destruct (truthy v) eqn:Hv. Qed.

Lemma integer_defaults_truthy field d :
  (field, d) ∈ integer_defaults → truthy d = true.
Proof.
  intros Hin. unfold integer_defaults in Hin.
  repeat (apply elem_of_cons in Hin as [[= -> ->]|Hin]; [done|]).
  by apply elem_of_nil in Hin.
Qed.

Lemma insert_js_or_id (bridge : gmap string jsval) field d :
  truthy (get bridge field) = true →
  <[field := js_or (get bridge field) d]> bridge = bridge.
Proof.
  intros Ht. unfold js_or. rewrite Ht. apply insert_id.
  unfold get in *. by destruct (bridge !! field).
Qed.

(** Where the seven fields are set to values that count as true, the
    assignment of the defaults changes nothing. *)
Lemma with_defaults_id bridge :
  (∀ field d, (field, d) ∈ integer_defaults → truthy (get bridge field) = true) →
  with_defaults bridge = bridge.
Proof.
  intros Ht. unfold with_defaults.
  assert (∀ field, field ∈ integer_defaults.*1 → truthy (get bridge field) = true) as Ht'.
  { intros field [[f d] [-> Hin]]%list_elem_of_fmap. by eapply Ht. }
  assert (∀ field d, field ∈ integer_defaults.*1 →
            <[field := js_or (get bridge field) d]> bridge = bridge) as Hid.
  { intros field d Hin. apply insert_js_or_id. by apply Ht'. }
  unfold integer_defaults in Hid. cbn in Hid.
  rewrite (Hid "concurrency") by set_solver.
  rewrite (Hid "maxAttempts") by set_solver.
  rewrite (Hid "timeout") by set_solver.
  rewrite (Hid "backoffMultiplier") by set_solver.
  rewrite (Hid "maxQueueLength") by set_solver.
  rewrite (Hid "maxBrokerConnectWait") by set_solver.
  apply Hid. set_solver.
Qed.

Lemma get_with_defaults_other bridge field :
  field ∉ integer_defaults.*1 → get (with_defaults bridge) field = get bridge field.
Proof.
  intros Hnot. unfold integer_defaults in Hnot. cbn in Hnot.
  unfold with_defaults, get.
  rewrite !lookup_insert_ne; [done|intros <-; apply Hnot; set_solver..].
Qed.

Lemma valid_number_truthy v :
  isValidNumber v = true → v ≠ JUndefined → truthy v = true.
Proof.
  destruct v as [| |b|[n|num den| |neg]|s|vs]; simpl; try done.
  - intros Hv _. apply bool_decide_eq_true in Hv. apply bool_decide_eq_true. lia.
  - intros [_ Hv%bool_decide_eq_true]%andb_true_iff _. apply bool_decide_eq_true. lia.
Qed.

Lemma integer_defaults_valid field d :
  (field, d) ∈ integer_defaults → isValidNumber d = true ∧ d ≠ JUndefined.
Proof.
  intros Hin. unfold integer_defaults in Hin.
  repeat (apply elem_of_cons in Hin as [[= -> ->]|Hin]; [done|]).
  by apply elem_of_nil in Hin.
Qed.

Lemma js_or_valid v d :
  isValidNumber v = true → isValidNumber d = true → d ≠ JUndefined →
  isValidNumber (js_or v d) = true ∧ js_or v d ≠ JUndefined.
Proof.
  intros Hv Hd Hd'. unfold js_or. destruct (truthy v) eqn:Ht.
  - split; [done|]. by intros ->.
  - done.
Qed.

(** The seven fields that get a default hold a value that counts as true
    after the assignment, whatever they held before. *)
Lemma with_defaults_truthy bridge field d :
  (field, d) ∈ integer_defaults → truthy (get (with_defaults bridge) field) = true.
Proof.
  intros Hin. rewrite (get_with_defaults _ _ _ Hin).
  apply truthy_js_or. by eapply integer_defaults_truthy.
Qed.

Lemma with_defaults_valid bridge field :
  field ∈ integerConfigFields →
  isValidNumber (get bridge field) = true →
  isValidNumber (get (with_defaults bridge) field) = true.
Proof.
  intros Hin Hv. destruct (decide (field = "backOffMultiplier")) as [->|Hne].
  - rewrite get_with_defaults_other; [done|].
    unfold integer_defaults. cbn. intros Hin'.
    repeat (apply elem_of_cons in Hin' as [?|Hin']; [done|]).
    by apply elem_of_nil in Hin'.
  - assert (∃ d, (field, d) ∈ integer_defaults) as [d Hd].
    { unfold integerConfigFields in Hin.
      repeat (apply elem_of_cons in Hin as [->|Hin];
              [first [done
                     | eexists; unfold integer_defaults;
                       repeat first [apply list_elem_of_here | apply list_elem_of_further]]|]).
      by apply elem_of_nil in Hin. }
    rewrite (get_with_defaults _ _ _ Hd).
    destruct (integer_defaults_valid _ _ Hd). by apply js_or_valid.
Qed.

Lemma check_endpoints_Return URL_protocol bridge bridge' :
  check_endpoints URL_protocol bridge = Return bridge' →
  bridge' = bridge
  ∧ isValidArrayOfURLs URL_protocol (get bridge "httpEndpoints") ["http:"; "https:"] = true
  ∧ isValidArrayOfURLs URL_protocol (JArr [get bridge "mqttEndpoint"])
      ["mqtt:"; "mqtts:"; "ws:"; "wss:"] = true
  ∧ isValidArrayOfStrings (get bridge "topics") = true.
Proof.
  unfold check_endpoints.
  destruct (isValidArrayOfURLs URL_protocol (get bridge "httpEndpoints")
              ["http:"; "https:"]); cbn [negb]; [|intros [=]].
  destruct (isValidArrayOfURLs URL_protocol (JArr [get bridge "mqttEndpoint"])
              ["mqtt:"; "mqtts:"; "ws:"; "wss:"]); cbn [negb]; [|intros [=]].
  destruct (isValidArrayOfStrings (get bridge "topics")); cbn [negb]; [|intros [=]].
  by intros [= <-].
Qed.

Lemma validate_bridge_inv URL_protocol bridge bridge' :
  validate_bridge URL_protocol bridge = Return bridge' →
  Forall (λ field, isValidNumber (get bridge field) = true) integerConfigFields
  ∧ check_endpoints URL_protocol (with_defaults bridge) = Return bridge'.
Proof.
  rewrite validate_bridge_unfold.
  destruct (list_find _ integerConfigFields) as [[i f]|] eqn:Hfind; [done|].
  intros Hcheck. split; [|done].
  apply list_find_None in Hfind. eapply Forall_impl; [exact Hfind|].
  intros field Hf. simpl in Hf. by destruct (isValidNumber (get bridge field)).
Qed.

Lemma validate_bridge_idempotent URL_protocol bridge bridge' :
  validate_bridge URL_protocol bridge = Return bridge' →
  validate_bridge URL_protocol bridge' = Return bridge'.
Proof.
  intros [Hvalid Hcheck]%validate_bridge_inv.
  pose proof Hcheck as [-> _]%check_endpoints_Return.
  rewrite validate_bridge_unfold.
  destruct (list_find _ integerConfigFields) as [[i f]|] eqn:Hfind.
  - apply list_find_Some in Hfind as (Hi & Hf & _). exfalso.
    apply list_elem_of_lookup_2 in Hi. rewrite Forall_forall in Hvalid.
    rewrite with_defaults_valid in Hf; [done|done|by apply Hvalid].
  - rewrite with_defaults_id; [done|].
    intros field d Hd. by eapply with_defaults_truthy.
Qed.

Lemma validate_bridges_idempotent URL_protocol bs bs' :
  validate_bridges URL_protocol bs = Return bs' →
  validate_bridges URL_protocol bs' = Return bs'.
Proof.
  revert bs'. induction bs as [|[name b] bs IH]; intros bs'; simpl.
  - by intros [= <-].
  - destruct (validate_bridge URL_protocol b) as [b'|] eqn:Hb; [|done].
    destruct (validate_bridges URL_protocol bs) as [bs''|] eqn:Hbs; [|done].
    intros [= <-]. simpl.
    by rewrite (validate_bridge_idempotent _ _ _ Hb), (IH _ eq_refl).
Qed.

(** X11.  Validation is idempotent: a configuration that [config] returned
    passes [config] again, and comes back as it is. *)
Theorem validate_config_idempotent URL_protocol base validated :
  validate_config URL_protocol base = Return validated →
  validate_config URL_protocol validated = Return validated.
Proof.
  unfold validate_config. intros Hv.
  destruct (logLevel base) as [| |b|x|lv|vs] eqn:Hl; simpl in Hv; try done.
  - destruct (bridges base) as [bs|]; [|done].
    destruct (validate_bridges URL_protocol bs) as [bs'|] eqn:Hbs; [|done].
    injection Hv as <-. simpl.
    by rewrite (validate_bridges_idempotent _ _ _ Hbs).
  - destruct (bool_decide (lv ∈ logLevels)) eqn:Hin; [|done].
    destruct (bridges base) as [bs|]; [|done].
    destruct (validate_bridges URL_protocol bs) as [bs'|] eqn:Hbs; [|done].
    injection Hv as <-. simpl.
    by rewrite Hin, (validate_bridges_idempotent _ _ _ Hbs).
Qed.

Definition validated_example : configFile :=
  ConfigFile (JStr "warn")
    (Some [("test", with_defaults (<["clientId" := JStr "id"]> example_bridge))]).

Lemma validate_config_idempotent_witness :
  validate_config url_protocol validated_example = Return validated_example.
Proof.
  apply (validate_config_idempotent url_protocol (configured "clientId" (JStr "id"))).
  reflexivity.
Defined.

(** X12.  What [bridge.js] can rely on in a bridge section that passed the
    validation: [concurrency], [maxAttempts], [timeout], [maxQueueLength],
    [maxBrokerConnectWait] and [brokerConnectBackoffMultiplier] are numbers,
    integers, and greater than zero; [httpEndpoints] is a non-empty array of
    [http:] or [https:] URLs, [mqttEndpoint] a URL of one of the four broker
    protocols, and [topics] passes [isValidArrayOfStrings]. *)
Theorem validated_bridge_is_usable URL_protocol bridge bridge' :
  validate_bridge URL_protocol bridge = Return bridge' →
  (∀ field,
     field ∈ ["concurrency"; "maxAttempts"; "timeout"; "maxQueueLength";
              "maxBrokerConnectWait"; "brokerConnectBackoffMultiplier"] →
     ∃ x, get bridge' field = JNum x
          ∧ Number_isInteger x = true ∧ greater_than_zero x = true)
  ∧ isValidArrayOfURLs URL_protocol (get bridge' "httpEndpoints") ["http:"; "https:"] = true
  ∧ isValidArrayOfURLs URL_protocol (JArr [get bridge' "mqttEndpoint"])
      ["mqtt:"; "mqtts:"; "ws:"; "wss:"] = true
  ∧ isValidArrayOfStrings (get bridge' "topics") = true.
Proof.
  intros [Hvalid Hcheck]%validate_bridge_inv.
  apply check_endpoints_Return in Hcheck as (-> & Hhttp & Hmqtt & Htopics).
  split; [|done].
  intros field Hin.
  assert (field ∈ integerConfigFields ∧ ∃ d, (field, d) ∈ integer_defaults) as [Hf [d Hd]].
  { repeat (apply elem_of_cons in Hin as [->|Hin];
            [split;
             [unfold integerConfigFields
             |eexists; unfold integer_defaults];
             repeat first [apply list_elem_of_here | apply list_elem_of_further]|]).
    by apply elem_of_nil in Hin. }
  rewrite Forall_forall in Hvalid. specialize (Hvalid field Hf).
  destruct (integer_defaults_valid _ _ Hd) as [Hdv Hdu].
  destruct (js_or_valid _ _ Hvalid Hdv Hdu) as [Hv Hu].
  rewrite (get_with_defaults _ _ _ Hd).
  destruct (js_or (get bridge field) d) as [| |b|x|s|vs]; try done.
  exists x. simpl in Hv. apply andb_true_iff in Hv. by split.
Qed.

Lemma validated_bridge_is_usable_witness :
  ∃ x, get (with_defaults example_bridge) "maxQueueLength" = JNum x
       ∧ Number_isInteger x = true ∧ greater_than_zero x = true.
Proof.
  refine (proj1 (validated_bridge_is_usable url_protocol example_bridge
                   (with_defaults example_bridge) _) "maxQueueLength" _).
  - reflexivity.
  - do 3 right. left.
Defined.

(** X13.  [isValidArrayOfStrings] accepts exactly the non-empty arrays in
    which the first element that is not a string, if there is one, is
    [undefined] (what [find] returns for it is then taken for 'nothing
    found'); every array of strings with at least one element is among
    them, and nothing that is not an array is. *)
Theorem isValidArrayOfStrings_spec (values : jsval) :
  isValidArrayOfStrings values = true
  ↔ ∃ vs, values = JArr vs
          ∧ vs ≠ []
          ∧ ∀ strings v rest,
              vs = strings ++ v :: rest →
              Forall (λ s, is_string s = true) strings →
              is_string v = true ∨ v = JUndefined.
Proof.
  split.
  - destruct values as [| |b|x|s|vs]; try done.
    destruct vs as [|v0 vs0] eqn:Hvs; [done|]. rewrite <- Hvs. clear Hvs.
    intros Hvalid. exists vs. split; [done|]. split; [by intros ->|].
    assert (match list_find (λ v, is_string v = false) vs with
            | None | Some (_, JUndefined) => true
            | Some _ => false
            end = true) as Hfind by (by destruct vs).
    clear Hvalid. intros strings v rest -> Hstrings.
    destruct (is_string v) eqn:Hv; [by left|right].
    destruct (list_find _ (strings ++ v :: rest)) as [[i w]|] eqn:Hf.
    + apply list_find_Some in Hf as (Hi & Hw & Hfirst).
      assert (i = length strings) as ->.
      { destruct (Nat.lt_trichotomy i (length strings)) as [Hlt|[->|Hgt]]; [|done|].
        - rewrite lookup_app_l in Hi by done. rewrite Forall_forall in Hstrings.
          apply list_elem_of_lookup_2, Hstrings in Hi. congruence.
        - exfalso. apply (Hfirst (length strings) v); [|done|done].
          by rewrite list_lookup_middle. }
      rewrite list_lookup_middle in Hi by done. injection Hi as <-.
      by destruct v.
    + exfalso. apply list_find_None in Hf. rewrite Forall_forall in Hf.
      apply (Hf v); [|done]. apply elem_of_app. right. by left.
  - intros (vs & -> & Hne & Hfirst).
    assert (match list_find (λ v, is_string v = false) vs with
            | None | Some (_, JUndefined) => true
            | Some _ => false
            end = true) as Hfind; [|destruct vs; [by destruct Hne|exact Hfind]].
    destruct (list_find _ vs) as [[i w]|] eqn:Hf; [|done].
    apply list_find_Some in Hf as (Hi & Hw & Hbefore).
    destruct (Hfirst (take i vs) w (drop (S i) vs)) as [Hs| ->]; [| |congruence|done].
    + by rewrite take_drop_middle.
    + apply Forall_forall. intros s [j [Hj Hlt]%lookup_take_Some]%list_elem_of_lookup_1.
      specialize (Hbefore j s Hj Hlt). by destruct (is_string s).
Qed.

Example isValidArrayOfStrings_scenario :
  isValidArrayOfStrings <$> [JArr [JStr "a"; JStr "b"]; JArr []; JStr "a";
                             JArr [JStr "a"; JNum (NInt 1)];
                             JArr [JUndefined]; JArr [JStr "a"; JUndefined; JNum (NInt 1)]]
  = [true; false; false; false; true; true].
Proof. vm_compute. done. Qed.

Lemma validate_bridges_Forall2 URL_protocol bs bs' :
  validate_bridges URL_protocol bs = Return bs' →
  Forall2 (λ nb nb', nb'.1 = nb.1 ∧ validate_bridge URL_protocol nb.2 = Return nb'.2) bs bs'.
Proof.
  revert bs'. induction bs as [|[name b] bs IH]; intros bs'; simpl.
  - intros [= <-]. constructor.
  - destruct (validate_bridge URL_protocol b) as [b'|] eqn:Hb; [|done].
    destruct (validate_bridges URL_protocol bs) as [bs''|] eqn:Hbs; [|done].
    intros [= <-]. constructor; [done|]. by apply IH.
Qed.

(** X14.  All that a successful validation changes: the configuration
    returned has the bridges of the one given, under the same names and in
    the same order; in each bridge a field that has a default holds
    [given || default], and every other field holds what was given; and
    [logLevel] is the one given, or ["warn"] when none was. *)
Theorem validation_only_fills_defaults URL_protocol base validated :
  validate_config URL_protocol base = Return validated →
  logLevel validated
  = match logLevel base with JUndefined => JStr "warn" | level => level end
  ∧ ∃ bs bs',
      bridges base = Some bs ∧ bridges validated = Some bs'
      ∧ Forall2 (λ nb nb',
                   nb'.1 = nb.1
                   ∧ ∀ field,
                       (field ∉ integer_defaults.*1 → get nb'.2 field = get nb.2 field)
                       ∧ (∀ d, (field, d) ∈ integer_defaults →
                               get nb'.2 field = js_or (get nb.2 field) d))
          bs bs'.
Proof.
  unfold validate_config. intros Hv.
  assert (∀ bs bs', validate_bridges URL_protocol bs = Return bs' →
    Forall2 (λ nb nb',
               nb'.1 = nb.1
               ∧ ∀ field,
                   (field ∉ integer_defaults.*1 → get nb'.2 field = get nb.2 field)
                   ∧ (∀ d, (field, d) ∈ integer_defaults →
                           get nb'.2 field = js_or (get nb.2 field) d))
      bs bs') as Hbridges.
  { intros bs bs' Hbs. eapply Forall2_impl; [by apply validate_bridges_Forall2|].
    intros [name b] [name' b'] [Hname [-> _]%validate_bridge_Return]. simpl in *.
    split; [done|]. intros field. split.
    - apply get_with_defaults_other.
    - intros d Hd. by apply get_with_defaults. }
  destruct (logLevel base) as [| |b|x|lv|vs] eqn:Hl; simpl in Hv; try done.
  - destruct (bridges base) as [bs|]; [|done].
    destruct (validate_bridges URL_protocol bs) as [bs'|] eqn:Hbs; [|done].
    injection Hv as <-. simpl. split; [done|]. exists bs, bs'. auto.
  - destruct (bool_decide (lv ∈ logLevels)) eqn:Hin; [|done].
    destruct (bridges base) as [bs|]; [|done].
    destruct (validate_bridges URL_protocol bs) as [bs'|] eqn:Hbs; [|done].
    injection Hv as <-. simpl. split; [done|]. exists bs, bs'. auto.
Qed.

Lemma validation_only_fills_defaults_witness :
  logLevel validated_example = JStr "warn"
  ∧ ∃ bs bs',
      bridges (configured "clientId" (JStr "id")) = Some bs
      ∧ bridges validated_example = Some bs'
      ∧ Forall2 (λ nb nb',
                   nb'.1 = nb.1
                   ∧ ∀ field,
                       (field ∉ integer_defaults.*1 → get nb'.2 field = get nb.2 field)
                       ∧ (∀ d, (field, d) ∈ integer_defaults →
                               get nb'.2 field = js_or (get nb.2 field) d))
          bs bs'.
Proof.
  apply (validation_only_fills_defaults url_protocol (configured "clientId" (JStr "id"))
           validated_example).
  reflexivity.
Defined.

(** * The process: start of the bridges, diagnostics, log levels *)

Lemma foldl_add_foldr (x : Z) (xs : list Z) :
  foldl Z.add x xs = foldr Z.add 0 (x :: xs).
Proof.
  revert x. induction xs as [|y xs IH]; intros x; simpl; [lia|].
  rewrite IH. simpl. lia.
Qed.

Lemma printDiagnostics_started rss bridges lastMessageCount :
  bridges ≠ [] →
  ∃ d, printDiagnostics rss bridges lastMessageCount = Return (d, dg_messageCount d)
       ∧ dg_messageCount d = foldr Z.add 0 (getMessageCount <$> bridges)
       ∧ dg_incremental d = dg_messageCount d - lastMessageCount
       ∧ dg_queueLengths d = getQueueLength <$> bridges
       ∧ dg_rss d = NFraction rss (1024 * 1024).
Proof.
  intros Hne. destruct bridges as [|b bs]; [done|].
  unfold printDiagnostics. cbn [fmap list_fmap reduce_sum].
  eexists (Diagnostics _ _ _ _). split; [reflexivity|].
  cbn [dg_messageCount dg_incremental dg_queueLengths dg_rss].
  by rewrite !foldl_add_foldr.
Qed.

(** X16.  [printDiagnostics] throws a [TypeError] while no bridge has
    started (the array [bridges] is empty and [reduce] has no initial
    value).  With at least one bridge it reports the sum of the message
    counts of the bridges, the difference of that sum to the one of the last
    report, and the queue lengths of every bridge, and it remembers the sum
    for the next report. *)
Theorem printDiagnostics_spec rss bridges lastMessageCount :
  printDiagnostics rss [] lastMessageCount = Throw ReduceOfEmptyArray
  ∧ (bridges ≠ [] →
     ∃ d, printDiagnostics rss bridges lastMessageCount = Return (d, dg_messageCount d)
          ∧ dg_messageCount d = foldr Z.add 0 (getMessageCount <$> bridges)
          ∧ dg_incremental d = dg_messageCount d - lastMessageCount
          ∧ dg_queueLengths d = getQueueLength <$> bridges
          ∧ dg_rss d = NFraction rss (1024 * 1024)).
Proof.
  split; [done|]. apply printDiagnostics_started.
Qed.

Lemma diagnostics_run_sum ticks lastMessageCount :
  Forall (λ t, t.2 ≠ []) ticks →
  (diagnostics_run ticks lastMessageCount).2 = None
  ∧ length (diagnostics_run ticks lastMessageCount).1 = length ticks
  ∧ lastMessageCount
    + foldr Z.add 0 (dg_incremental <$> (diagnostics_run ticks lastMessageCount).1)
    = default lastMessageCount
        (dg_messageCount <$> last (diagnostics_run ticks lastMessageCount).1).
Proof.
  intros Hne. revert lastMessageCount.
  induction Hne as [|[rss bs] ticks Hbs Hne IH]; intros lastMessageCount.
  - simpl. split; [done|]. split; [done|lia].
  - simpl in Hbs. cbn [diagnostics_run].
    destruct (printDiagnostics_started rss bs lastMessageCount Hbs)
      as (d & -> & _ & Hinc & _).
    destruct (IH (dg_messageCount d)) as (He & Hlen & Hsum).
    destruct (diagnostics_run ticks (dg_messageCount d)) as [ds e]. cbn [fst snd] in *.
    split; [done|]. split; [simpl; by rewrite Hlen|].
    rewrite last_cons, fmap_cons. cbn [foldr]. rewrite Hinc.
    destruct (last ds) as [dl|]; simpl in *; lia.
Qed.

(** X17.  As long as a bridge has started at every report, no report fails,
    and the numbers reported as [incremental], added up from the first
    report on, give the total [messageCount] of the last report (the
    variable [lastMessageCount] starts at 0).  A report made when no bridge
    has started throws, and no report follows it. *)
Theorem diagnostics_increments_add_up ticks :
  (Forall (λ t, t.2 ≠ []) ticks →
   (diagnostics_run ticks 0).2 = None
   ∧ length (diagnostics_run ticks 0).1 = length ticks
   ∧ foldr Z.add 0 (dg_incremental <$> (diagnostics_run ticks 0).1)
     = default 0 (dg_messageCount <$> last (diagnostics_run ticks 0).1))
  ∧ ∀ rss ticks',
      Forall (λ t, t.2 ≠ []) ticks →
      (diagnostics_run (ticks ++ (rss, []) :: ticks') 0).2 = Some ReduceOfEmptyArray
      ∧ length (diagnostics_run (ticks ++ (rss, []) :: ticks') 0).1 = length ticks.
Proof.
  split.
  - intros Hne. destruct (diagnostics_run_sum ticks 0 Hne) as (He & Hlen & Hsum).
    split; [done|]. split; [done|]. lia.
  - intros rss ticks' Hne. generalize 0 as lastMessageCount.
    induction Hne as [|[rss' bs] ticks Hbs Hne IH]; intros lastMessageCount.
    + done.
    + simpl in Hbs. cbn [app diagnostics_run].
      destruct (printDiagnostics_started rss' bs lastMessageCount Hbs) as (d & -> & _).
      destruct (IH (dg_messageCount d)) as [He Hlen].
      destruct (diagnostics_run _ (dg_messageCount d)) as [ds e]. simpl in *.
      split; [done|]. by rewrite Hlen.
Qed.

(** ** The ways the process ends *)

Lemma index_js_snoc PRINT_DIAGNOSTICS evs ev :
  index_js PRINT_DIAGNOSTICS (evs ++ [ev])
  = index_step PRINT_DIAGNOSTICS (index_js PRINT_DIAGNOSTICS evs) ev.
Proof. unfold index_js. by rewrite foldl_app. Qed.

Lemma index_steps_Exited PRINT_DIAGNOSTICS code output evs :
  foldl (index_step PRINT_DIAGNOSTICS) (IxExited code output) evs = IxExited code output.
Proof. by induction evs. Qed.

Lemma index_steps_Uncaught PRINT_DIAGNOSTICS e evs :
  foldl (index_step PRINT_DIAGNOSTICS) (IxUncaught e) evs = IxUncaught e.
Proof. by induction evs. Qed.

Lemma index_js_Exited PRINT_DIAGNOSTICS evs code output :
  index_js PRINT_DIAGNOSTICS evs = IxExited code output →
  code = 1
  ∧ ∃ l calls msg,
      IxSettled l ∈ evs
      ∧ create_bridge (launch_config l) (launch_connects l) (launch_subscribe l)
        = StartFailed calls msg
      ∧ output = "ERROR: " +:+ msg.
Proof.
  induction evs as [|ev evs IH] using rev_ind; [done|].
  rewrite index_js_snoc.
  destruct (index_js PRINT_DIAGNOSTICS evs) as [bs last lg|c o|e]; simpl.
  - destruct ev as [l|i ev|rss]; simpl.
    + destruct (create_bridge _ _ _) as [st|c subscribed b|calls msg] eqn:Hl; try done.
      intros [= <- <-]. split; [done|]. exists l, calls, msg.
      split; [|done]. apply elem_of_app. right. apply list_elem_of_here.
    + done.
    + destruct PRINT_DIAGNOSTICS; [|done].
      by destruct (printDiagnostics _ _ _) as [[d last']|e].
  - intros Hst. destruct (IH Hst) as (-> & l & calls & msg & Hin & Hl & ->).
    split; [done|]. exists l, calls, msg. split; [|done]. apply elem_of_app. by left.
  - done.
Qed.

Lemma index_js_Uncaught PRINT_DIAGNOSTICS evs e :
  index_js PRINT_DIAGNOSTICS evs = IxUncaught e →
  PRINT_DIAGNOSTICS = true
  ∧ e = ReduceOfEmptyArray
  ∧ ∃ evs1 rss evs2 last logged,
      evs = evs1 ++ IxInterval rss :: evs2
      ∧ index_js PRINT_DIAGNOSTICS evs1 = IxRunning [] last logged.
Proof.
  induction evs as [|ev evs IH] using rev_ind; [done|].
  rewrite index_js_snoc.
  destruct (index_js PRINT_DIAGNOSTICS evs) as [bs last lg|c o|e'] eqn:Hst; simpl.
  - destruct ev as [l|i ev|rss]; simpl.
    + by destruct (create_bridge _ _ _).
    + done.
    + destruct PRINT_DIAGNOSTICS; [|done]. destruct bs as [|b bs].
      * intros _. split; [done|]. split; [by destruct e|].
        by exists evs, rss, [], last, lg.
      * destruct (printDiagnostics_started rss ((b :: bs).*2) last) as (d & -> & _); done.
  - done.
  - intros Hst'. destruct (IH Hst') as (-> & -> & evs1 & rss & evs2 & last & lg & -> & H1).
    split; [done|]. split; [done|].
    exists evs1, rss, (evs2 ++ [ev]), last, lg. split; [|done].
    by rewrite <- app_assoc.
Qed.

(** X15.  The process of [index.js], once the bridges are created, ends in
    two ways and no other.  It ends with [process.exit] only with code 1 and
    the error of a bridge on its output, after the start of that bridge has
    failed on a subscription.  An error leaves the callback of the
    diagnostics interval uncaught only when [PRINT_DIAGNOSTICS] is ['true']
    and the interval fires while no bridge has started: it is the
    [TypeError] of [reduce], and it is thrown whenever the interval fires
    then.  And a bridge whose start fails on a subscription ends the
    process, whatever the other bridges do, unless that error has ended it
    before. *)
Theorem ways_the_process_ends PRINT_DIAGNOSTICS evs :
  (∀ code output,
     index_js PRINT_DIAGNOSTICS evs = IxExited code output →
     code = 1
     ∧ ∃ l calls msg,
         IxSettled l ∈ evs
         ∧ create_bridge (launch_config l) (launch_connects l) (launch_subscribe l)
           = StartFailed calls msg
         ∧ output = "ERROR: " +:+ msg)
  ∧ (∀ e,
       index_js PRINT_DIAGNOSTICS evs = IxUncaught e →
       PRINT_DIAGNOSTICS = true
       ∧ e = ReduceOfEmptyArray
       ∧ ∃ evs1 rss evs2 last logged,
           evs = evs1 ++ IxInterval rss :: evs2
           ∧ index_js PRINT_DIAGNOSTICS evs1 = IxRunning [] last logged)
  ∧ (∀ rss evs' last logged,
       PRINT_DIAGNOSTICS = true →
       index_js PRINT_DIAGNOSTICS evs = IxRunning [] last logged →
       index_js PRINT_DIAGNOSTICS (evs ++ IxInterval rss :: evs')
       = IxUncaught ReduceOfEmptyArray)
  ∧ ((∃ l calls msg,
        IxSettled l ∈ evs
        ∧ create_bridge (launch_config l) (launch_connects l) (launch_subscribe l)
          = StartFailed calls msg) →
     (∃ output, index_js PRINT_DIAGNOSTICS evs = IxExited 1 output)
     ∨ (PRINT_DIAGNOSTICS = true
        ∧ index_js PRINT_DIAGNOSTICS evs = IxUncaught ReduceOfEmptyArray)).
Proof.
  split; [|split; [|split]].
  - intros code output. apply index_js_Exited.
  - intros e. apply index_js_Uncaught.
  - intros rss evs' last logged -> Hst. unfold index_js in *.
    rewrite foldl_app, Hst. simpl. apply index_steps_Uncaught.
  - intros (l & calls & msg & Hin & Hl).
    apply list_elem_of_split in Hin as (evs1 & evs2 & ->).
    unfold index_js. rewrite foldl_app. fold (index_js PRINT_DIAGNOSTICS evs1). simpl.
    destruct (index_js PRINT_DIAGNOSTICS evs1) as [bs last lg|c o|e] eqn:Hst; simpl.
    + rewrite Hl, index_steps_Exited. left. by eexists.
    + apply index_js_Exited in Hst as [-> _]. rewrite index_steps_Exited. left. by eexists.
    + apply index_js_Uncaught in Hst as (-> & -> & _). rewrite index_steps_Uncaught.
      by right.
Qed.

(** Two bridges: the first connects and subscribes, the second connects and
    is refused a topic. *)
Example one_failed_bridge_scenario :
  let ok := Launch cfg1 [Connected 1] (λ _, Granted) in
  let refused := Launch cfg2 [ConnectFailed "ECONNREFUSED"; Connected 2]
                   (λ _, SubscribeError "Not authorized") in
  index_js false [IxSettled ok; IxBridge 0 (EvMessage "t" "m1" 1); IxSettled refused]
  = IxExited 1 "ERROR: Failed to subscribe to all topics on mqtt://localhost:1883. Reason: Not authorized".
Proof. vm_compute. done. Qed.

(** One bridge that cannot reach its broker, and diagnostics switched on:
    the first report finds no bridge. *)
Example no_bridge_at_first_report :
  let unreachable := Launch cfg1 [ConnectFailed "ECONNREFUSED"; ConnectFailed "ECONNREFUSED"]
                       (λ _, Granted) in
  index_js true [IxSettled unreachable; IxInterval 52428800]
  = IxUncaught ReduceOfEmptyArray
  ∧ index_js false [IxSettled unreachable; IxInterval 52428800] = IxRunning [] 0 [].
Proof. vm_compute. done. Qed.

Lemma indexOf_not_elem_of x l : x ∉ l → indexOf x l = -1.
Proof.
  induction l as [|y l IH]; intros Hx; simpl; [done|].
  rewrite decide_False by (intros ->; apply Hx; by left).
  rewrite IH by (intros Hin; apply Hx; by right). done.
Qed.

(** X18.  The log levels of [log.js].  For a configured level and a logger
    that are both among [debug], [warn], [error], [diagnostics] and [none],
    the logger prints exactly when it does not come before the configured
    level in that order: [warn] silences [debug] only, [none] silences all
    four loggers, and [diagnostics] is printed at every level but [none].
    For a level that is not in the list, [indexOf] is [-1] and every logger
    prints. *)
Theorem log_prints_spec level name :
  name ∈ log_logLevels →
  (level ∈ log_logLevels →
   (log_prints level name = true
    ↔ indexOf level log_logLevels <= indexOf name log_logLevels))
  ∧ (level ∉ log_logLevels → log_prints level name = true).
Proof.
  intros Hname. split.
  - intros Hlevel. unfold log_logLevels in Hname, Hlevel.
    repeat (apply elem_of_cons in Hlevel as [->|Hlevel];
            [repeat (apply elem_of_cons in Hname as [->|Hname];
                     [by vm_compute|]);
             by apply elem_of_nil in Hname|]).
    by apply elem_of_nil in Hlevel.
  - intros Hlevel. unfold log_prints, debugConfs.
    rewrite indexOf_not_elem_of by done. unfold log_logLevels in Hname.
    repeat (apply elem_of_cons in Hname as [->|Hname]; [by vm_compute|]).
    by apply elem_of_nil in Hname.
Qed.

Lemma log_prints_spec_witness :
  ("warn" ∈ log_logLevels →
   (log_prints "warn" "debug" = true
    ↔ indexOf "warn" log_logLevels <= indexOf "debug" log_logLevels))
  ∧ ("warn" ∉ log_logLevels → log_prints "warn" "debug" = true).
Proof.
  apply (log_prints_spec "warn" "debug"). apply list_elem_of_here.
Defined.

Example log_levels_scenario :
  (λ level, filter (λ name, log_prints level name) ["debug"; "warn"; "error"; "diagnostics"])
  <$> ["debug"; "warn"; "error"; "none"; "verbose"]
  = [["debug"; "warn"; "error"; "diagnostics"];
     ["warn"; "error"; "diagnostics"];
     ["error"; "diagnostics"];
     [];
     ["debug"; "warn"; "error"; "diagnostics"]].
Proof. vm_compute. done. Qed.

(** * The number of requests a message can cost *)

(** One if [l'] is [l], zero otherwise. *)
Definition hit (l l' : nat) : nat := if decide (l' = l) then 1%nat else 0%nat.

(** The occurrences of a message among tasks. *)
Definition cnt (l : nat) (xs : list nat) : nat := length (filter (λ x, x = l) xs).

(** The requests issued so far for the message [l]. *)
Definition posted (l : nat) (ps : list (nat * request)) : nat :=
  length (filter (λ p, p.1 = l) ps).

(** The places the message [l] holds in the waiting lists of the queues. *)
Definition waiting (l : nat) (qs : gmap string fastq) : nat :=
  sum_list_with (λ kq, cnt l (fq_pending kq.2)) (map_to_list qs).

(** The retry timers outstanding for the message [l]. *)
Definition scheduled (l : nat) (ts : list timer) : nat :=
  length (filter (λ t, tm_msg t = l) ts).

(** The requests issued for [l] and those that the state promises: one per
    place in a waiting list and one per retry timer. *)
Definition spent (l : nat) (s : bridge) : nat :=
  (posted l (posts s) + waiting l (queues s) + scheduled l (timers s))%nat.

Lemma cnt_app l xs ys : cnt l (xs ++ ys) = (cnt l xs + cnt l ys)%nat.
Proof. unfold cnt. by rewrite filter_app, length_app. Qed.

Lemma cnt_cons l x xs : cnt l (x :: xs) = (hit l x + cnt l xs)%nat.
Proof. unfold cnt, hit. rewrite filter_cons. by case_decide. Qed.

Lemma posted_snoc l l' rq ps :
  posted l (ps ++ [(l', rq)]) = (posted l ps + hit l l')%nat.
Proof.
  unfold posted, hit. rewrite filter_app, length_app, filter_cons. simpl.
  by case_decide.
Qed.

Lemma scheduled_snoc l t ts :
  scheduled l (ts ++ [t]) = (scheduled l ts + hit l (tm_msg t))%nat.
Proof.
  unfold scheduled, hit. rewrite filter_app, length_app, filter_cons. simpl.
  by case_decide.
Qed.

Lemma scheduled_delete l i t ts :
  ts !! i = Some t →
  (scheduled l (delete i ts) + hit l (tm_msg t))%nat = scheduled l ts.
Proof.
  intros Hi. rewrite <- (take_drop_middle ts i t Hi) at 2.
  rewrite delete_take_drop. unfold scheduled, hit.
  rewrite !filter_app, !length_app, filter_cons. case_decide; simpl; lia.
Qed.

Lemma waiting_insert l e q q' (qs : gmap string fastq) :
  qs !! e = Some q →
  (waiting l (<[e:=q']> qs) + cnt l (fq_pending q))%nat
  = (waiting l qs + cnt l (fq_pending q'))%nat.
Proof.
  intros Hq. unfold waiting.
  assert (map_to_list qs ≡ₚ (e, q) :: map_to_list (delete e qs)) as ->.
  { rewrite <- map_to_list_insert by apply lookup_delete_eq.
    by rewrite insert_delete_id. }
  assert (map_to_list (<[e:=q']> qs) ≡ₚ (e, q') :: map_to_list (delete e qs)) as ->.
  { rewrite <- map_to_list_insert by apply lookup_delete_eq.
    by rewrite insert_delete_eq. }
  simpl. lia.
Qed.

Lemma posts_push_or_release cfg e l' s :
  (posted l' (posts (bridgeWorker_post cfg e l' s)) ≤ posted l' (posts s) + 1)%nat
  ∧ ∀ l, l ≠ l' → posted l (posts (bridgeWorker_post cfg e l' s)) = posted l (posts s).
Proof.
  unfold bridgeWorker_post. destruct (heap s !! l'); simpl.
  - split.
    + rewrite posted_snoc. unfold hit. case_decide; lia.
    + intros l Hne. rewrite posted_snoc. unfold hit. by rewrite decide_False, Nat.add_0_r.
  - split; [lia|done].
Qed.

Lemma spent_post cfg e l' l s :
  (spent l (bridgeWorker_post cfg e l' s) ≤ spent l s + hit l l')%nat.
Proof.
  unfold spent. rewrite queues_post, timers_post.
  destruct (posts_push_or_release cfg e l' s) as [Hsame Hother].
  unfold hit. case_decide as Hl.
  - subst. lia.
  - rewrite Hother by done. lia.
Qed.

Lemma spent_push cfg e l' l s :
  (spent l (fastq_push cfg e l' s) ≤ spent l s + hit l l')%nat.
Proof.
  unfold fastq_push. destruct (queues s !! e) as [q|] eqn:Hq; [|lia].
  case_decide.
  - unfold spent. simpl.
    pose proof (waiting_insert l e q
      (Fastq (fq_concurrency q) (fq_running q) (fq_pending q ++ [l'])) _ Hq) as Hw.
    simpl in Hw. rewrite cnt_app, cnt_cons in Hw. unfold cnt at 3 in Hw. simpl in Hw. lia.
  - etrans; [apply spent_post|]. unfold spent. simpl.
    pose proof (waiting_insert l e q
      (Fastq (fq_concurrency q) (fq_running q ++ [l']) (fq_pending q)) _ Hq) as Hw.
    simpl in Hw. lia.
Qed.

Lemma spent_release cfg e i l s :
  (spent l (fastq_release cfg e i s) ≤ spent l s)%nat.
Proof.
  unfold fastq_release. destruct (queues s !! e) as [q|] eqn:Hq; [|lia].
  destruct (fq_pending q) as [|next rest] eqn:Hp.
  - unfold spent. simpl.
    pose proof (waiting_insert l e q
      (Fastq (fq_concurrency q) (delete i (fq_running q)) []) _ Hq) as Hw.
    rewrite Hp in Hw. simpl in Hw. lia.
  - etrans; [apply spent_post|]. unfold spent. simpl.
    pose proof (waiting_insert l e q
      (Fastq (fq_concurrency q) (delete i (fq_running q) ++ [next]) rest) _ Hq) as Hw.
    rewrite Hp, cnt_cons in Hw. simpl in Hw. lia.
Qed.

Lemma spent_offers cfg tpc l' l ks s :
  (spent l (foldl (offer cfg tpc l') s ks) ≤ spent l s + hit l l' * length ks)%nat.
Proof.
  revert s. induction ks as [|k ks IH]; intros s; simpl; [lia|].
  etrans; [apply IH|].
  assert (spent l (offer cfg tpc l' s k) ≤ spent l s + hit l l')%nat; [|lia].
  unfold offer. destruct (queues s !! k); [|lia].
  case_decide; [apply spent_push|]. unfold spent. simpl. lia.
Qed.

(** What the message [l] may still cost: nothing before it exists, and
    afterwards one request per endpoint and one per retry so far. *)
Definition budget (cfg : config) (l : nat) (s : bridge) : Z :=
  match heap s !! l with
  | Some m => Z.of_nat (length (httpEndpoints cfg)) + attempts m
  | None => 0
  end.

Definition within_budget (cfg : config) (s : bridge) : Prop :=
  ∀ l, Z.of_nat (spent l s) <= budget cfg l s.

Lemma within_budget_mono cfg s s' :
  heap s' = heap s →
  (∀ l, (spent l s' ≤ spent l s)%nat) →
  within_budget cfg s → within_budget cfg s'.
Proof.
  intros Hh Hs Hb l. unfold budget. rewrite Hh.
  specialize (Hb l). specialize (Hs l). unfold budget in Hb. lia.
Qed.

Lemma within_budget_requeue cfg e l' s :
  within_budget cfg s → within_budget cfg (requeue cfg e l' s).2.
Proof.
  intros Hb. unfold requeue. destruct (heap s !! l') as [m|] eqn:Hm; [|done].
  case_decide; [|by apply (within_budget_mono cfg s)].
  intros l. specialize (Hb l). unfold budget, spent in *. simpl.
  rewrite scheduled_snoc. simpl. unfold hit.
  destruct (decide (l' = l)) as [->|Hne].
  - rewrite list_lookup_insert_eq by (by eapply lookup_lt_Some).
    rewrite Hm in Hb. simpl. lia.
  - rewrite list_lookup_insert_ne by done. lia.
Qed.

Lemma within_budget_settled cfg e i o s :
  within_budget cfg s → within_budget cfg (bridgeWorker_settled cfg e i o s).
Proof.
  intros Hb. unfold bridgeWorker_settled. destruct (queues s !! e ≫= _) as [l'|]; [|done].
  eapply within_budget_mono; [apply heap_release|intros l; apply spent_release|].
  rewrite handlers_calls_requeue.
  destruct (calls_requeue o); [by apply within_budget_requeue|done].
Qed.

Lemma within_budget_timer cfg i s :
  within_budget cfg s → within_budget cfg (timer_fired cfg i s).
Proof.
  intros Hb. unfold timer_fired. destruct (timers s !! i) as [t|] eqn:Ht; [|done].
  eapply within_budget_mono; [|intros l|exact Hb].
  - by rewrite heap_push.
  - etrans; [apply spent_push|]. unfold spent. simpl.
    pose proof (scheduled_delete l i t (timers s) Ht). lia.
Qed.

Lemma within_budget_messageReceived cfg tpc msg now s :
  (∀ e, is_Some (queues s !! e) → e ∈ httpEndpoints cfg) →
  within_budget cfg s → within_budget cfg (messageReceived cfg tpc msg now s).
Proof.
  intros Hkeys Hb l. specialize (Hb l). unfold messageReceived, budget in *.
  rewrite heap_offers. simpl.
  pose proof (spent_offers cfg tpc (length (heap s)) l (Object_keys (queues s))
                (set_heap (heap s ++ [QueueMsg (MsgData tpc msg now) 0]) s)) as Hs.
  assert (spent l (set_heap (heap s ++ [QueueMsg (MsgData tpc msg now) 0]) s) = spent l s)
    as Hs0 by done.
  simpl in Hs. rewrite Hs0 in Hs. unfold hit in Hs.
  destruct (decide (length (heap s) = l)) as [<-|Hne].
  - rewrite lookup_ge_None_2 in Hb by done.
    rewrite lookup_app_r, Nat.sub_diag by done. simpl.
    assert (length (Object_keys (queues s)) ≤ length (httpEndpoints cfg))%nat.
    { apply submseteq_length, NoDup_submseteq; [apply NoDup_fst_map_to_list|].
      intros e He. by apply Hkeys, elem_of_Object_keys. }
    lia.
  - destruct (decide (l < length (heap s))%nat).
    + rewrite lookup_app_l by done. lia.
    + rewrite lookup_ge_None_2 in Hb by lia.
      rewrite lookup_ge_None_2 by (rewrite length_app; simpl; lia). lia.
Qed.

Lemma within_budget_run cfg evs : within_budget cfg (run cfg evs).
Proof.
  induction evs as [|ev evs IH] using rev_ind.
  - intros l. unfold budget, spent. simpl.
    replace (waiting l (create_queues cfg)) with 0%nat; [done|].
    unfold waiting. symmetry.
    assert (∀ kq, kq ∈ map_to_list (create_queues cfg) → cnt l (fq_pending kq.2) = 0%nat)
      as Hempty.
    { intros [k q] Hin%elem_of_map_to_list. rewrite lookup_create_queues in Hin.
      case_decide; [|done]. by injection Hin as <-. }
    induction (map_to_list (create_queues cfg)) as [|kq kqs IHk]; [done|].
    simpl. rewrite Hempty by (by left). apply IHk. intros kq' Hin. apply Hempty. by right.
  - unfold run in *. rewrite foldl_app. simpl.
    destruct ev as [tpc msg now|e i o|i]; simpl.
    + unfold on_message. apply within_budget_messageReceived.
      * simpl. intros e [q Hq].
        by apply (queues_run_ind (λ _, True) cfg evs e q).
      * by apply (within_budget_mono cfg (foldl (handle cfg) (new_bridge cfg) evs)).
    + by apply within_budget_settled.
    + by apply within_budget_timer.
Qed.

(** X19.  Retries are bounded over the whole life of a message: at every
    point of every run, the number of requests issued for one message, to
    all endpoints and at all attempts together, is at most the number of
    configured endpoints plus [maxAttempts - 1] (plus nothing when
    [maxAttempts] is less than 1). *)
Theorem requests_per_message_bounded cfg evs l :
  Z.of_nat (posted l (posts (run cfg evs)))
  <= Z.of_nat (length (httpEndpoints cfg)) + Z.max 0 (maxAttempts cfg - 1).
Proof.
  pose proof (within_budget_run cfg evs l) as Hb. unfold budget, spent in Hb.
  destruct (heap (run cfg evs) !! l) as [m|] eqn:Hm.
  - destruct (retry_ok_run cfg evs) as [Hh _].
    pose proof (Forall_lookup_1 _ _ _ _ Hh Hm) as [_ Hmax]. lia.
  - lia.
Qed.

(** With two endpoints and [maxAttempts = 2], three requests at most; the
    run of the example reaches the bound. *)
Example requests_scenario :
  posted 0 (posts (run cfg2 retry_run)) = 3%nat
  ∧ Z.of_nat (length (httpEndpoints cfg2)) + Z.max 0 (maxAttempts cfg2 - 1) = 3.
Proof. vm_compute. done. Qed.

(** * The requests a message gives rise to at once *)

(** Does a message offered to the endpoint go to the worker at once?  It
    does when the queue is under its bound and the worker has a free
    place. *)
Definition starts (cfg : config) (qs : gmap string fastq) (e : string) : bool :=
  match qs !! e with
  | Some q => bool_decide (fq_length q < maxQueueLength cfg)
              && bool_decide (fq_count_running q ≠ fq_concurrency q)
  | None => false
  end.

Lemma posts_offer cfg tpc l m s e :
  heap s !! l = Some m →
  posts (offer cfg tpc l s e)
  = posts s ++ (if starts cfg (queues s) e
                then [(l, Request e (data m) "application/json" (timeout cfg))] else []).
Proof.
  intros Hm. unfold offer, starts.
  destruct (queues s !! e) as [q|] eqn:Hq; [|by rewrite app_nil_r].
  case_decide as Hlen.
  - rewrite bool_decide_true by done. unfold fastq_push. rewrite Hq.
    case_decide as Hfull.
    + rewrite bool_decide_false by (by intros Hne). simpl. by rewrite app_nil_r.
    + rewrite bool_decide_true by done. unfold bridgeWorker_post. simpl.
      by rewrite Hm.
  - rewrite bool_decide_false by done. simpl. by rewrite app_nil_r.
Qed.

Lemma starts_offer_ne cfg tpc l s k e :
  k ≠ e → starts cfg (queues (offer cfg tpc l s k)) e = starts cfg (queues s) e.
Proof. intros Hne. unfold starts. by rewrite queues_offer, lookup_alter_ne. Qed.

Lemma posts_offers cfg tpc l m ks s :
  NoDup ks →
  heap s !! l = Some m →
  posts (foldl (offer cfg tpc l) s ks)
  = posts s ++ ((λ e, (l, Request e (data m) "application/json" (timeout cfg)))
                <$> filter (λ e, starts cfg (queues s) e) ks).
Proof.
  intros Hnd. revert s. induction Hnd as [|k ks Hk Hnd IH]; intros s Hm; simpl.
  - by rewrite app_nil_r.
  - rewrite IH by (by rewrite heap_offer).
    rewrite (posts_offer _ _ _ m) by done. rewrite <- app_assoc. f_equal.
    rewrite filter_cons.
    rewrite (filter_ext_elem_of (λ e, starts cfg (queues (offer cfg tpc l s k)) e)
               (λ e, starts cfg (queues s) e)).
    + by destruct (starts cfg (queues s) k).
    + intros e He. rewrite starts_offer_ne; [done|]. intros ->. done.
Qed.

(** X20.  A message is forwarded at once wherever there is room: the
    requests [messageReceived] issues are posts of the new message, as
    [application/json] and with the configured timeout, one to every
    endpoint whose queue is under its bound while fewer than [concurrency]
    requests to it are under way, and none to any other endpoint. *)
Theorem messageReceived_posts cfg tpc msg now s :
  ∃ started,
    posts (messageReceived cfg tpc msg now s)
    = posts s ++ ((λ e, (length (heap s),
                         Request e (MsgData tpc msg now) "application/json" (timeout cfg)))
                  <$> started)
    ∧ NoDup started
    ∧ ∀ e, e ∈ started
           ↔ ∃ q, queues s !! e = Some q
                  ∧ fq_length q < maxQueueLength cfg
                  ∧ fq_count_running q ≠ fq_concurrency q.
Proof.
  exists (filter (λ e, starts cfg (queues s) e) (Object_keys (queues s))).
  split; [|split].
  - unfold messageReceived, Object_keys.
    rewrite (posts_offers cfg tpc (length (heap s)) (QueueMsg (MsgData tpc msg now) 0)
               _ _ (NoDup_fst_map_to_list _)); [done|].
    simpl. by rewrite lookup_app_r, Nat.sub_diag.
  - apply NoDup_filter, NoDup_fst_map_to_list.
  - intros e. rewrite list_elem_of_filter, elem_of_Object_keys. unfold starts.
    destruct (queues s !! e) as [q|]; simpl.
    + rewrite andb_True, !bool_decide_spec. split.
      * intros [[Hlen Hrun] _]. by exists q.
      * intros (q' & [= <-] & Hlen & Hrun). split; [done|by eexists].
    + split; [by intros [[] _]|by intros (q' & ? & _)].
Qed.

(** * Where the requests go *)

Lemma posts_post_url cfg e l s p :
  p ∈ posts (bridgeWorker_post cfg e l s) →
  p ∈ posts s ∨ (rq_url p.2 = e ∧ rq_timeout p.2 = timeout cfg).
Proof.
  unfold bridgeWorker_post. destruct (heap s !! l) as [m|]; [|by left].
  simpl. intros [Hin|Hin]%elem_of_app; [by left|].
  apply list_elem_of_singleton in Hin as ->. by right.
Qed.

Lemma posts_push_url cfg e l s p :
  p ∈ posts (fastq_push cfg e l s) →
  p ∈ posts s ∨ (is_Some (queues s !! rq_url p.2) ∧ rq_timeout p.2 = timeout cfg).
Proof.
  unfold fastq_push. destruct (queues s !! e) as [q|] eqn:Hq; [|by left].
  case_decide; [by left|].
  intros [Hin|[-> Ht]]%posts_post_url; [by left|]. right. by rewrite Hq.
Qed.

Lemma posts_release_url cfg e i s p :
  p ∈ posts (fastq_release cfg e i s) →
  p ∈ posts s ∨ (is_Some (queues s !! rq_url p.2) ∧ rq_timeout p.2 = timeout cfg).
Proof.
  unfold fastq_release. destruct (queues s !! e) as [q|] eqn:Hq; [|by left].
  destruct (fq_pending q) as [|next rest]; [by left|].
  intros [Hin|[-> Ht]]%posts_post_url; [by left|]. right. by rewrite Hq.
Qed.

Lemma posts_handle_url cfg s ev p :
  p ∈ posts (handle cfg s ev) →
  p ∈ posts s ∨ (is_Some (queues s !! rq_url p.2) ∧ rq_timeout p.2 = timeout cfg).
Proof.
  destruct ev as [tpc msg now|e i o|i]; simpl.
  - unfold on_message, messageReceived, Object_keys.
    rewrite (posts_offers cfg tpc (length (heap s)) (QueueMsg (MsgData tpc msg now) 0)
               _ _ (NoDup_fst_map_to_list _));
      [|simpl; by rewrite lookup_app_r, Nat.sub_diag].
    simpl. intros [Hin|Hin]%elem_of_app; [by left|]. right.
    apply list_elem_of_fmap in Hin as (e & -> & [He _]%list_elem_of_filter). simpl.
    unfold starts in He. by destruct (queues s !! e).
  - unfold bridgeWorker_settled. destruct (queues s !! e ≫= _) as [l|]; [|by left].
    intros Hin%posts_release_url. rewrite queues_handlers in Hin.
    rewrite handlers_calls_requeue in Hin.
    destruct (calls_requeue o); [by rewrite posts_requeue in Hin|done].
  - unfold timer_fired. destruct (timers s !! i) as [t|]; [|by left].
    by intros Hin%posts_push_url.
Qed.

(** X21.  A bridge sends requests nowhere but to its configured endpoints,
    and every request has the configured timeout. *)
Theorem requests_go_to_configured_endpoints cfg evs l rq :
  (l, rq) ∈ posts (run cfg evs) →
  rq_url rq ∈ httpEndpoints cfg ∧ rq_timeout rq = timeout cfg.
Proof.
  unfold run. induction evs as [|ev evs IH] using rev_ind.
  - simpl. by intros Hin%elem_of_nil.
  - rewrite foldl_app. simpl. intros [Hin|[[q Hq] Ht]]%posts_handle_url; [by apply IH|].
    split; [|done]. simpl in Hq.
    by apply (queues_run_ind (λ _, True) cfg evs (rq_url rq) q).
Qed.

Lemma requests_go_to_configured_endpoints_witness :
  "http://b.example/hook" ∈ httpEndpoints cfg2 ∧ 60000 = timeout cfg2.
Proof.
  apply (requests_go_to_configured_endpoints cfg2 retry_run 0%nat
           (Request "http://b.example/hook" (MsgData "t" "Hello" 1592425256831)
              "application/json" 60000)).
  rewrite retry_run_posts. apply list_elem_of_further, list_elem_of_here.
Defined.

(** * Connection before subscription *)

(** X22.  The exported function of [bridge.js] does nothing before the
    broker is connected: if it has started a bridge or has thrown, one of the
    connect attempts had succeeded; and while every attempt fails it is still
    connecting, no matter what the broker would answer to a subscription. *)
Theorem no_start_before_connection cfg outcomes subscribe :
  (∀ c subscribed b,
     create_bridge cfg outcomes subscribe = Started c subscribed b →
     Connected c ∈ outcomes)
  ∧ (∀ calls msg,
       create_bridge cfg outcomes subscribe = StartFailed calls msg →
       ∃ c, Connected c ∈ outcomes)
  ∧ ((∀ c, Connected c ∉ outcomes) →
     create_bridge cfg outcomes subscribe = StillConnecting (connectToBroker cfg outcomes)).
Proof.
  unfold create_bridge, connectToBroker.
  destruct (attemptConnection_promise cfg
              (MqttOptions (clientId cfg) (username cfg) (password cfg))
              outcomes (Connecting 0 [] 0 Pending) eq_refl)
    as [Hp|(c & Hin & Hp)]; rewrite Hp.
  - split; [done|]. split; [done|]. done.
  - destruct (subscribeToTopics cfg subscribe) as [calls [[]|msg]].
    + split; [by intros c' subscribed b [= <- _ _]|]. split; [done|].
      intros Hnone. by destruct (Hnone c).
    + split; [done|]. split; [intros calls' msg' _; by exists c|].
      intros Hnone. by destruct (Hnone c).
Qed.
